(** * clay.gp: the Google Play Music client-and-cache layer

    A shallow embedding of [src/clay/gp.py]: the entity models ([Track],
    [Playlist]), the decorator [asynchronous], and the singleton client [GP]
    with its two caches.  Python objects that are shared and mutated
    ([Track] instances) live in an explicit object store addressed by
    references; code that can raise returns an [outcome]. *)

From Stdlib Require Import ZArith Ascii String.
From Stdlib Require DecimalString.
From stdpp Require Import gmap strings list fin_maps.

Open Scope string_scope.
Open Scope list_scope.

(** ** Python values *)

(** The scalar values found in the fields of an API response: [None], a
    string, an integer. *)
Inductive pyval : Type :=
| PNone
| PStr (s : string)
| PInt (z : Z).

#[global] Instance pyval_eq_dec : EqDecision pyval.
Proof. solve_decision. Defined.

#[global] Instance pyval_inhabited : Inhabited pyval := populate PNone.

#[global] Instance pyval_countable : Countable pyval :=
  inj_countable'
    (fun v => match v with
              | PNone => inl tt
              | PStr s => inr (inl s)
              | PInt z => inr (inr z)
              end)
    (fun x => match x with
              | inl _ => PNone
              | inr (inl s) => PStr s
              | inr (inr z) => PInt z
              end)
    (fun v => match v with PNone | PStr _ | PInt _ => eq_refl end).

(** Truth value of [if v:]. *)
Definition truthy (v : pyval) : bool :=
  match v with
  | PNone => false
  | PStr s => negb (String.eqb s "")
  | PInt z => negb (Z.eqb z 0)
  end.

(** A name between double quotes, as the messages of the exceptions
    have them. *)
Definition double_quote : string := String (Ascii.ascii_of_nat 34) EmptyString.
Definition quoted (s : string) : string :=
  (double_quote ++ s ++ double_quote)%string.

(** [a == b] on these values. *)
Definition py_eq (a b : pyval) : bool := bool_decide (a = b).

(** [x in (a, b, c)]: membership in a tuple goes by [==]. *)
Definition tuple_contains (x : pyval) (t : list pyval) : bool :=
  existsb (py_eq x) t.

(** The exceptions (instances of [Exception]) the module can meet. *)
Inductive exn : Type :=
| KeyError (key : string)
| AttributeError (msg : string)
| TypeError (msg : string)
| ValueError (msg : string)
| Exception (msg : string)
| RemoteError (msg : string).

(** Result of running a piece of code: a value, or a raised exception. *)
Inductive outcome (A : Type) : Type :=
| Return (a : A)
| Raise (e : exn).
Arguments Return {A} a.
Arguments Raise {A} e.

Definition returned {A} (o : outcome A) : bool :=
  match o with Return _ => true | Raise _ => false end.

(** ** class Track *)

Record Track : Type := mkTrack {
  id_ : pyval;
  track_id : pyval;
  store_id : pyval;
  title : pyval;
  artist : pyval;
  duration : Z
}.

#[global] Instance Track_eq_dec : EqDecision Track.
Proof. solve_decision. Defined.

#[global] Instance Track_inhabited : Inhabited Track :=
  populate (mkTrack PNone PNone PNone PNone PNone 0).

Module TrackModel.

Definition no_identifier_msg : string :=
  ("None of " ++ quoted "id" ++ ", " ++ quoted "track_id" ++ " and "
   ++ quoted "store_id" ++ " were set for this track!")%string.

(** [Track.id] (property). *)
Definition id (self : Track) : outcome pyval :=
  if truthy (id_ self) then Return (id_ self)
  else if truthy (track_id self) then Return (track_id self)
  else if truthy (store_id self) then Return (store_id self)
  else Raise (Exception no_identifier_msg).

(** [Track.__eq__]. *)
Definition __eq__ (self other : Track) : bool :=
  if truthy (track_id self) then py_eq (track_id self) (track_id other)
  else if truthy (store_id self) then py_eq (store_id self) (store_id other)
  else if truthy (id_ self) then py_eq (store_id self) (id_ other)
  else false.

(** [Track.type] (property). *)
Definition type (self : Track) : outcome string :=
  if truthy (track_id self) then Return "playlist"
  else if truthy (store_id self) then Return "store"
  else if truthy (id_ self) then Return "uploaded"
  else Raise (Exception no_identifier_msg).

(** [Track.copy]: the field-by-field value of the new instance. *)
Definition copy_fields (self : Track) : Track :=
  mkTrack (id_ self) (track_id self) (store_id self)
          (title self) (artist self) (duration self).

(** The three identifier kinds, and the one [__eq__] dispatches on: the
    first populated among track id, store id, library id of [self]. *)
Inductive id_kind : Type := KTrackId | KStoreId | KLibraryId.

Definition field (k : id_kind) (t : Track) : pyval :=
  match k with
  | KTrackId => track_id t
  | KStoreId => store_id t
  | KLibraryId => id_ t
  end.

Definition leading_kind (t : Track) : option id_kind :=
  if truthy (track_id t) then Some KTrackId
  else if truthy (store_id t) then Some KStoreId
  else if truthy (id_ t) then Some KLibraryId
  else None.

(** Two tracks carry the same identifiers. *)
Definition same_identifiers (a b : Track) : Prop :=
  id_ a = id_ b /\ track_id a = track_id b /\ store_id a = store_id b.

End TrackModel.

(** ** API response shapes *)

(** A playlist entry of the server response: the nested dictionary under
    the key [track] when the entry embeds the track data, and the scalar
    keys of the entry ([trackId], ...). *)
Record playlist_item : Type := mkItem {
  item_track : option (gmap string pyval);
  item_fields : gmap string pyval
}.

(** A playlist of the server response: scalar keys ([id], [name]) and the
    list under [tracks]. *)
Record playlist_data : Type := mkPlaylistData {
  pl_fields : gmap string pyval;
  pl_tracks : option (list playlist_item)
}.

(** ** The object store and the client state *)

(** References to [Track] instances. *)
Abbreviation loc := positive.

(** [class Playlist]: the track sequence holds references. *)
Record Playlist : Type := mkPlaylist {
  playlist_id : pyval;
  playlist_name : pyval;
  tracks : list loc
}.

(** Events fired through the hooks [caches_invalidated] and
    [auth_state_changed]. *)
Inductive event : Type :=
| CachesInvalidated
| AuthStateChanged (state : bool).

(** Calls made on [mobile_client], in the order they are issued. *)
Inductive remote_call : Type :=
| CallLogout
| CallLogin
| CallGetAllSongs
| CallGetAllUserPlaylistContents
| CallAddStoreTracks (track : pyval)
| CallDeleteSongs (track : pyval)
| CallCreateStation (name : string) (track : pyval)
| CallGetStationTracks (station : pyval) (num_tracks : Z)
| CallGetStreamUrl (stream : pyval)
| CallSearch (query : pyval).

#[global] Instance remote_call_eq_dec : EqDecision remote_call.
Proof. solve_decision. Defined.

(** The builtin [int] on a string: [None] stands for [ValueError]. *)
Class Builtins : Type := { int_of_str : string -> option Z }.

(** [gmusicapi.Mobileclient], the opaque remote session: every call
    returns a response or raises, and may change the session. *)
Class Mobileclient (remote : Type) : Type := {
  reply : Type;
  reply_truthy : reply -> bool;
  mc_logout : remote -> outcome unit * remote;
  mc_login : pyval -> pyval -> pyval -> remote -> outcome reply * remote;
  mc_is_authenticated : remote -> bool;
  mc_get_all_songs : remote -> outcome (list (gmap string pyval)) * remote;
  mc_get_all_user_playlist_contents :
    remote -> outcome (list playlist_data) * remote;
  mc_add_store_tracks : pyval -> remote -> outcome reply * remote;
  mc_delete_songs : pyval -> remote -> outcome reply * remote
}.

Section Client.
Context {remote : Type} `{!Mobileclient remote} `{!Builtins}.

(** The singleton [GP] instance together with the store of [Track]
    objects and the two logs (events fired, remote calls issued). *)
Record GP : Type := mkGP {
  heap : gmap loc Track;
  mobile_client : remote;
  cached_tracks : option (list loc);
  cached_playlists : option (list Playlist);
  fired : list event;
  calls : list remote_call
}.

Definition set_heap (h : gmap loc Track) (g : GP) : GP :=
  mkGP h (mobile_client g) (cached_tracks g) (cached_playlists g)
       (fired g) (calls g).
Definition set_mobile_client (r : remote) (g : GP) : GP :=
  mkGP (heap g) r (cached_tracks g) (cached_playlists g) (fired g) (calls g).
Definition set_cached_tracks (c : option (list loc)) (g : GP) : GP :=
  mkGP (heap g) (mobile_client g) c (cached_playlists g) (fired g) (calls g).
Definition set_cached_playlists (c : option (list Playlist)) (g : GP) : GP :=
  mkGP (heap g) (mobile_client g) (cached_tracks g) c (fired g) (calls g).
Definition log_event (e : event) (g : GP) : GP :=
  mkGP (heap g) (mobile_client g) (cached_tracks g) (cached_playlists g)
       (fired g ++ [e]) (calls g).
Definition log_call (c : remote_call) (g : GP) : GP :=
  mkGP (heap g) (mobile_client g) (cached_tracks g) (cached_playlists g)
       (fired g) (calls g ++ [c]).

(** *** The monad of client code: state passing with exceptions *)

Definition M (A : Type) : Type := GP -> outcome A * GP.

Definition ret {A} (a : A) : M A := fun g => (Return a, g).
Definition raise {A} (e : exn) : M A := fun g => (Raise e, g).
Definition bind {A B} (m : M A) (k : A -> M B) : M B :=
  fun g => match m g with
           | (Return a, g') => k a g'
           | (Raise e, g') => (Raise e, g')
           end.
Definition lift {A} (o : outcome A) : M A := fun g => (o, g).
Definition get_state : M GP := fun g => (Return g, g).
Definition modify (f : GP -> GP) : M unit := fun g => (Return tt, f g).

Notation "'let*' x ':=' m 'in' k" := (bind m (fun x => k))
  (at level 10, x pattern, m at level 100, k at level 200).
Notation "m ';;' k" := (bind m (fun _ => k))
  (at level 100, k at level 200, right associativity).

(** [for x in xs: ys.append(f(x))] and list comprehensions. *)
Fixpoint for_each {A B} (f : A -> M B) (xs : list A) : M (list B) :=
  match xs with
  | [] => ret []
  | x :: rest =>
      let* y := f x in
      let* ys := for_each f rest in
      ret (y :: ys)
  end.

(** A call on [mobile_client]: logged, run on the session, and its
    outcome passed on. *)
Definition remote_do {A} (c : remote_call)
    (f : remote -> outcome A * remote) : M A :=
  fun g =>
    let g1 := log_call c g in
    let '(o, r) := f (mobile_client g1) in
    (o, set_mobile_client r g1).

(** Modelled from the spec: [EventHook.fire] of [clay/eventhook.py]
    (absent from the sources): a broadcast to the subscribers, kept here
    as the record of the event fired. *)
Definition fire (e : event) : M unit := modify (log_event e).

(** *** Object store *)

(** Instantiating [Track(...)]: a new object at an unused reference. *)
Definition new_track (t : Track) : M loc :=
  fun g =>
    let l := fresh (dom (heap g)) in
    (Return l, set_heap (<[l := t]> (heap g)) g).

(** Reading the fields of the object behind a reference. *)
Definition deref (l : loc) (g : GP) : Track := heap g !!! l.

(** [track.track_id = v]: in-place update of the object. *)
Definition set_track_id (l : loc) (v : pyval) : M unit :=
  modify (fun g =>
    let t := deref l g in
    set_heap (<[l := mkTrack (id_ t) v (store_id t) (title t) (artist t)
                             (duration t)]> (heap g)) g).

(** *** Track.from_data and Track.copy *)

Definition getitem (d : gmap string pyval) (k : string) : outcome pyval :=
  match d !! k with
  | Some v => Return v
  | None => Raise (KeyError k)
  end.

(** [dict.get(k)]. *)
Definition dict_get (d : gmap string pyval) (k : string) : pyval :=
  default PNone (d !! k).

Definition contains (d : gmap string pyval) (k : string) : bool :=
  bool_decide (is_Some (d !! k)).

(** Builtin [int(v)]. *)
Definition py_int (v : pyval) : outcome Z :=
  match v with
  | PInt z => Return z
  | PStr s => match int_of_str s with
              | Some z => Return z
              | None => Raise (ValueError "invalid literal for int()")
              end
  | PNone => Raise (TypeError "int() argument must be a string or a number")
  end.

Definition outcome_bind {A B} (o : outcome A) (k : A -> outcome B)
    : outcome B :=
  match o with Return a => k a | Raise e => Raise e end.

Definition missing_identifiers_msg : string :=
  ("Track is missing " ++ quoted "id" ++ ", " ++ quoted "storeId" ++ " and "
   ++ quoted "trackId" ++ "!")%string.

(** The field values [Track.from_data(data)] (one item) passes to the
    constructor. *)
Definition parse_track (data : gmap string pyval) : outcome Track :=
  if negb (contains data "id") && negb (contains data "storeId")
     && negb (contains data "trackId")
  then Raise (Exception missing_identifiers_msg)
  else
    outcome_bind (getitem data "title") (fun title =>
    outcome_bind (getitem data "artist") (fun artist =>
    outcome_bind (getitem data "durationMillis") (fun millis =>
    outcome_bind (py_int millis) (fun duration =>
    Return (mkTrack (dict_get data "id") (dict_get data "trackId")
                    (dict_get data "storeId") title artist duration))))).

Definition Track_from_data (data : gmap string pyval) : M loc :=
  let* t := lift (parse_track data) in
  new_track t.

Definition Track_from_data_many (data : list (gmap string pyval))
    : M (list loc) :=
  for_each Track_from_data data.

(** [Track.copy]. *)
Definition Track_copy (self : loc) : M loc :=
  let* g := get_state in
  new_track (TrackModel.copy_fields (deref self g)).

(** *** GP.get_track_by_id *)

Definition matches_id (any_id : pyval) (t : Track) : bool :=
  tuple_contains any_id [id_ t; store_id t; track_id t].

Fixpoint find_track (g : GP) (any_id : pyval) (ts : list loc)
    : option loc :=
  match ts with
  | [] => None
  | l :: rest =>
      if matches_id any_id (deref l g) then Some l
      else find_track g any_id rest
  end.

Definition not_iterable_msg : string :=
  "'NoneType' object is not iterable".

(** The result is a reference, or [None]. *)
Definition get_track_by_id (any_id : pyval) : M (option loc) :=
  let* g := get_state in
  match cached_tracks g with
  | None => raise (TypeError not_iterable_msg)
  | Some ts => ret (find_track g any_id ts)
  end.

(** The dictionary a comprehension builds: the entries are put in one by
    one, a later entry replacing an earlier one with the same key. *)
Definition dict_of (pairs : list (pyval * loc)) : gmap pyval loc :=
  foldl (fun d p => <[fst p := snd p]> d) ∅ pairs.

(** [GP.get_cached_tracks_map]. *)
Definition get_cached_tracks_map : M (gmap pyval loc) :=
  let* g := get_state in
  match cached_tracks g with
  | None => raise (TypeError not_iterable_msg)
  | Some ts =>
      let* pairs :=
        for_each (fun l => let* k := lift (TrackModel.id (deref l g)) in
                           ret (k, l)) ts in
      ret (dict_of pairs)
  end.

(** *** Playlist.playlist_items_to_tracks *)

Definition no_copy_msg : string :=
  "'NoneType' object has no attribute 'copy'".

(** One turn of the loop: the track appended to [results]. *)
Definition playlist_item_to_track (playlist_track : playlist_item)
    : M loc :=
  match item_track playlist_track with
  | Some data => Track_from_data data
  | None =>
      let* any_id := lift (getitem (item_fields playlist_track) "trackId") in
      let* found := get_track_by_id any_id in
      let* track := match found with
                    | Some cached => Track_copy cached
                    | None => raise (AttributeError no_copy_msg)
                    end in
      let* tid := lift (getitem (item_fields playlist_track) "trackId") in
      set_track_id track tid ;;
      ret track
  end.

Fixpoint playlist_items_loop (playlist_tracks : list playlist_item)
    (results : list loc) : M (list loc) :=
  match playlist_tracks with
  | [] => ret results
  | playlist_track :: rest =>
      let* track := playlist_item_to_track playlist_track in
      playlist_items_loop rest (results ++ [track])
  end.

Definition playlist_items_to_tracks (playlist_tracks : list playlist_item)
    : M (list loc) :=
  playlist_items_loop playlist_tracks [].

(** [Playlist.from_data] (one item, then many). *)
Definition Playlist_from_data (data : playlist_data) : M Playlist :=
  let* pid := lift (getitem (pl_fields data) "id") in
  let* pname := lift (getitem (pl_fields data) "name") in
  let* items := match pl_tracks data with
                | Some items => ret items
                | None => raise (KeyError "tracks")
                end in
  let* ts := playlist_items_to_tracks items in
  ret (mkPlaylist pid pname ts).

Definition Playlist_from_data_many (data : list playlist_data)
    : M (list Playlist) :=
  for_each Playlist_from_data data.

(** *** class GP *)

(** Truth value of a cache attribute: [None] and the empty list are
    false. *)
Definition cache_truthy {A} (c : option (list A)) : bool :=
  match c with
  | Some (_ :: _) => true
  | _ => false
  end.

(** A cache holds a sequence, possibly an empty one, or is cleared:
    [None]. *)
Definition holds_sequence {A} (c : option (list A)) : bool :=
  match c with Some _ => true | None => false end.

Definition invalidate_caches : M unit :=
  modify (set_cached_tracks None) ;;
  modify (set_cached_playlists None) ;;
  fire CachesInvalidated.

Definition is_authenticated : M bool :=
  let* g := get_state in
  ret (mc_is_authenticated (mobile_client g)).

(** [GP.login]; the lock of [synchronized] is always free in a
    sequential run and is left out. *)
Definition login (email password device_id : pyval) : M reply :=
  remote_do CallLogout mc_logout ;;
  invalidate_caches ;;
  let* prev_auth_state := is_authenticated in
  let* result := remote_do CallLogin (mc_login email password device_id) in
  let* now := is_authenticated in
  (if negb (Bool.eqb prev_auth_state now)
   then let* state := is_authenticated in fire (AuthStateChanged state)
   else ret tt) ;;
  ret result.

Definition get_all_tracks : M (list loc) :=
  let* g := get_state in
  match cached_tracks g with
  | Some (t :: ts) => ret (t :: ts)
  | _ =>
      let* data := remote_do CallGetAllSongs mc_get_all_songs in
      let* ts := Track_from_data_many data in
      modify (set_cached_tracks (Some ts)) ;;
      ret ts
  end.

Definition get_all_user_playlist_contents : M (list Playlist) :=
  let* g := get_state in
  match cached_playlists g with
  | Some (p :: ps) => ret (p :: ps)
  | _ =>
      get_all_tracks ;;
      let* data := remote_do CallGetAllUserPlaylistContents
                             mc_get_all_user_playlist_contents in
      let* ps := Playlist_from_data_many data in
      modify (set_cached_playlists (Some ps)) ;;
      ret ps
  end.

Definition add_to_my_library (track : loc) : M reply :=
  let* g := get_state in
  let* tid := lift (TrackModel.id (deref track g)) in
  let* result := remote_do (CallAddStoreTracks tid)
                           (mc_add_store_tracks tid) in
  (if reply_truthy result then invalidate_caches else ret tt) ;;
  ret result.

Definition remove_from_my_library (track : loc) : M reply :=
  let* g := get_state in
  let* tid := lift (TrackModel.id (deref track g)) in
  let* result := remote_do (CallDeleteSongs tid) (mc_delete_songs tid) in
  (if reply_truthy result then invalidate_caches else ret tt) ;;
  ret result.

End Client.

(** ** The decorator [asynchronous] *)

Module Async.
Section Wrapper.
Context {St Args R V : Type}.

(** One invocation of the callback: [callback(result, error, **extra)].
    [None] in the first two components is Python's [None]. *)
Record call : Type := mkCall {
  call_result : option R;
  call_error : option exn;
  call_extra : gmap string V
}.

(** The state a thread runs in: the program state and the record of the
    callback invocations made so far. *)
Record world : Type := mkWorld {
  state : St;
  delivered : list call
}.

(** The wrapped function returns a Python value ([None] included) or
    raises. *)
Definition function : Type := Args -> St -> outcome (option R) * St.

(** The callback is caller code: it may change the program state, and it
    may raise. *)
Definition callback_fn : Type :=
  option R -> option exn -> gmap string V -> St -> outcome unit * St.

(** A thread body, run some time after [Thread(target=...).start()]. *)
Definition thread : Type := world -> outcome unit * world.

Definition invoke (callback : callback_fn) (result : option R)
    (error : option exn) (extra : gmap string V) : thread :=
  fun w =>
    let '(o, s) := callback result error extra (state w) in
    (o, mkWorld s (delivered w ++ [mkCall result error extra])).

(** The inner function [process]: [try] / [except Exception] / [else]. *)
Definition process (func : function) (args : Args) (callback : callback_fn)
    (extra : gmap string V) : thread :=
  fun w =>
    match func args (state w) with
    | (Return result, s) =>
        invoke callback result None extra (mkWorld s (delivered w))
    | (Raise error, s) =>
        invoke callback None (Some error) extra (mkWorld s (delivered w))
    end.

(** The inner function [wrapper]: the keyword arguments [callback] and
    [extra] are popped, the rest stays in [args]; the result is the thread
    started, which runs apart from the caller. *)
Definition asynchronous (func : function) (args : Args)
    (kw_callback : option callback_fn) (kw_extra : option (gmap string V))
    : outcome thread :=
  match kw_callback with
  | None => Raise (KeyError "callback")
  | Some callback =>
      let extra := default ∅ kw_extra in
      Return (process func args callback extra)
  end.

(** The callback invocations a thread adds when run from [w]. *)
Definition deliveries (t : thread) (w : world) : list call :=
  drop (length (delivered w)) (delivered (snd (t w))).

Definition is_null {A} (o : option A) : bool :=
  match o with None => true | Some _ => false end.

Definition exactly_one_null (c : call) : bool :=
  xorb (is_null (call_result c)) (is_null (call_error c)).

Definition both_null (c : call) : bool :=
  is_null (call_result c) && is_null (call_error c).

Definition both_non_null (c : call) : bool :=
  negb (is_null (call_result c)) && negb (is_null (call_error c)).

End Wrapper.
Arguments call : clear implicits.
Arguments world : clear implicits.
Arguments function : clear implicits.
Arguments callback_fn : clear implicits.
Arguments thread : clear implicits.
End Async.

(** The value a comprehension leaves under a key: that of the last entry
    with the key. *)
Fixpoint last_value (k : pyval) (pairs : list (pyval * loc)) : option loc :=
  match pairs with
  | [] => None
  | p :: rest =>
      match last_value k rest with
      | Some l => Some l
      | None => if decide (k = fst p) then Some (snd p) else None
      end
  end.

(** ** Notions used in the statements *)

Section Notions.
Context {remote : Type} `{!Mobileclient remote} `{!Builtins}.

(** Number of library fetches ([get_all_songs]) issued so far. *)
Definition fetches (g : @GP remote) : nat :=
  length (filter (fun c => c = CallGetAllSongs) (calls g)).

(** Number of [auth_state_changed] events fired so far. *)
Definition is_auth_event (e : event) : bool :=
  match e with AuthStateChanged _ => true | CachesInvalidated => false end.

Definition auth_events (g : @GP remote) : list event :=
  filter (fun e => is_auth_event e = true) (fired g).

(** The one-directional dependency between the caches: a sequence in the
    playlist cache (an empty one included) comes with a sequence in the
    track cache. *)
Definition cache_dependency (g : @GP remote) : Prop :=
  holds_sequence (cached_playlists g) = true ->
  holds_sequence (cached_tracks g) = true.

(** Every reference of the sequence is an object of the store. *)
Definition live (g : @GP remote) (ts : list loc) : Prop :=
  forall l, l ∈ ts -> l ∈ dom (heap g).

(** The track a playlist entry stands for, when there is one: the parsed
    embedded data, or the cached track found under the entry's [trackId]
    with its [track_id] replaced. *)
Definition patched (cached : Track) (tid : pyval) : Track :=
  mkTrack (id_ cached) tid (store_id cached) (title cached) (artist cached)
          (duration cached).

Definition item_value (g : @GP remote) (cache : list loc)
    (item : playlist_item) : option Track :=
  match item_track item with
  | Some data =>
      match parse_track data with Return t => Some t | Raise _ => None end
  | None =>
      match item_fields item !! "trackId" with
      | Some tid =>
          match find_track g tid cache with
          | Some cached => Some (patched (deref cached g) tid)
          | None => None
          end
      | None => None
      end
  end.

Definition resolvable (g : @GP remote) (cache : list loc)
    (item : playlist_item) : bool :=
  match item_value g cache item with Some _ => true | None => false end.

(** The track [t] has [v] as its library id, its store id or its track
    id. *)
Definition carries (v : pyval) (t : Track) : Prop :=
  id_ t = v \/ store_id t = v \/ track_id t = v.

(** A playlist entry that can be converted: embedded track data that
    [Track.from_data] accepts, or a bare [trackId] that some cached track
    carries. *)
Definition convertible (g : @GP remote) (cache : list loc)
    (item : playlist_item) : Prop :=
  match item_track item with
  | Some data => returned (parse_track data) = true
  | None =>
      exists tid, item_fields item !! "trackId" = Some tid /\
                  exists c, c ∈ cache /\ carries tid (deref c g)
  end.


(** The client part of the state (session, caches, logs) is the same:
    at most the object store differs. *)
Definition same_client (g g' : @GP remote) : Prop :=
  mobile_client g' = mobile_client g /\
  cached_tracks g' = cached_tracks g /\
  cached_playlists g' = cached_playlists g /\
  fired g' = fired g /\
  calls g' = calls g.

Definition heap_only {A} (m : @M remote A) : Prop :=
  forall g, same_client g (snd (m g)).

(** The state [invalidate_caches] leaves. *)
Definition invalidated (g : @GP remote) : @GP remote :=
  log_event CachesInvalidated
    (set_cached_playlists None (set_cached_tracks None g)).

(** The state after a call on [mobile_client] that left the session [r]. *)
Definition called (c : remote_call) (r : remote) (g : @GP remote)
    : @GP remote :=
  set_mobile_client r (log_call c g).

(** The state after a new [Track] object with the fields [t] was made. *)
Definition allocated (t : Track) (g : @GP remote) : @GP remote :=
  set_heap (<[fresh (dom (heap g)) := t]> (heap g)) g.

(** The entry of [get_cached_tracks_map] for one cached track. *)
Definition id_pair (g : @GP remote) (l : loc) : option (pyval * loc) :=
  match TrackModel.id (deref l g) with
  | Return k => Some (k, l)
  | Raise _ => None
  end.

(** The remote service reported the change of the library as done: the
    call returned a truthy result. *)
Definition reported_done (o : outcome reply) : bool :=
  match o with
  | Return result => reply_truthy result
  | Raise _ => false
  end.

(** Same caches and same events fired; the session, the call log and
    the store may differ. *)
Definition caches_and_events_kept (g g' : @GP remote) : Prop :=
  cached_tracks g' = cached_tracks g /\
  cached_playlists g' = cached_playlists g /\
  fired g' = fired g.

(** An in-place change of the object behind [l], whatever the new field
    values. *)
Definition mutate (l : loc) (t : Track) (g : @GP remote) : @GP remote :=
  set_heap (<[l := t]> (heap g)) g.

End Notions.

(** ** A scripted session, for the examples *)

Module Mock.

Record session : Type := mkSession {
  authenticated : bool;
  library : list (gmap string pyval);
  playlists : list playlist_data;
  accepts : bool;
  login_raises : bool;
  acks : bool
}.

Definition set_authenticated (b : bool) (s : session) : session :=
  mkSession b (library s) (playlists s) (accepts s) (login_raises s) (acks s).

(** [login] authenticates when the credentials are accepted; with
    [login_raises] it then fails on a later check, as a client does that
    validates the device id once the session is open. *)
Definition session_login (s : session) : outcome bool * session :=
  let s' := set_authenticated (accepts s) s in
  if login_raises s then (Raise (RemoteError "InvalidDeviceId"), s')
  else (Return (accepts s), s').

#[global] Instance client : Mobileclient session := {|
  reply := bool;
  reply_truthy := fun b => b;
  mc_logout := fun s => (Return tt, set_authenticated false s);
  mc_login := fun _ _ _ s => session_login s;
  mc_is_authenticated := authenticated;
  mc_get_all_songs := fun s => (Return (library s), s);
  mc_get_all_user_playlist_contents := fun s => (Return (playlists s), s);
  mc_add_store_tracks := fun _ s => (Return (acks s), s);
  mc_delete_songs := fun _ s => (Return (acks s), s)
|}.

Definition digit_of (c : ascii) : option Z :=
  let n := Z.of_nat (nat_of_ascii c) in
  if (48 <=? n)%Z && (n <=? 57)%Z then Some (n - 48)%Z else None.

Fixpoint decimal_from (acc : Z) (s : string) : option Z :=
  match s with
  | EmptyString => Some acc
  | String c rest =>
      match digit_of c with
      | Some d => decimal_from (10 * acc + d)%Z rest
      | None => None
      end
  end.

(** [int] on strings of decimal digits. *)
Definition decimal (s : string) : option Z :=
  match s with
  | EmptyString => None
  | _ => decimal_from 0 s
  end.

#[global] Instance builtins : Builtins := {| int_of_str := decimal |}.

Definition track_data (fields : list (string * pyval)) : gmap string pyval :=
  list_to_map fields.

(** Three library tracks. *)
Definition song1 : gmap string pyval :=
  track_data [("id", PStr "lib-1"); ("storeId", PStr "T1");
              ("title", PStr "One"); ("artist", PStr "A");
              ("durationMillis", PStr "1000")].
Definition song2 : gmap string pyval :=
  track_data [("id", PStr "lib-2"); ("storeId", PStr "T2");
              ("title", PStr "Two"); ("artist", PStr "B");
              ("durationMillis", PStr "2000")].
Definition song3 : gmap string pyval :=
  track_data [("id", PStr "lib-3");
              ("title", PStr "Three"); ("artist", PStr "C");
              ("durationMillis", PInt 3000)].

(** A playlist whose first entry embeds its track and whose second entry
    only refers to the library track [lib-2]. *)
Definition embedded_item : playlist_item :=
  mkItem (Some (track_data [("storeId", PStr "T9"); ("title", PStr "Nine");
                            ("artist", PStr "Z");
                            ("durationMillis", PStr "9000")]))
         (track_data [("trackId", PStr "T9")]).
Definition bare_item : playlist_item :=
  mkItem None (track_data [("trackId", PStr "lib-2")]).
(** An entry that refers to the library track [lib-2] by its store id. *)
Definition store_item : playlist_item :=
  mkItem None (track_data [("trackId", PStr "T2")]).

Definition playlist1 : playlist_data :=
  mkPlaylistData (track_data [("id", PStr "p1"); ("name", PStr "Mix")])
                 (Some [embedded_item; bare_item]).

(** A playlist all of whose entries embed their track. *)
Definition playlist_embedded : playlist_data :=
  mkPlaylistData (track_data [("id", PStr "p3"); ("name", PStr "Radio")])
                 (Some [embedded_item]).

Definition session0 : session :=
  mkSession false [song1; song2; song3] [playlist1] true false true.

(** The client as [GP.__init__] leaves it. *)
Definition fresh_client (s : session) : @GP session :=
  mkGP ∅ s None None [CachesInvalidated] [].

(** The client once [get_all_tracks] has filled the track cache. *)
Definition loaded : @GP session := snd (get_all_tracks (fresh_client session0)).

Definition raising_session : session :=
  mkSession false [] [] true true true.
(** Two accounts whose one playlist embeds all its tracks: one with an
    empty library, one with the three tracks. *)
Definition new_account : session :=
  mkSession true [] [playlist_embedded] true false true.
Definition radio_account : session :=
  mkSession true [song1; song2; song3] [playlist_embedded] true false true.

(** Two tracks that share the store id; only the first has a track id. *)
Definition in_playlist : Track :=
  mkTrack PNone (PStr "x") (PStr "s") (PStr "Song") (PStr "Band") 1000.
Definition in_store : Track :=
  mkTrack PNone PNone (PStr "s") (PStr "Song") (PStr "Band") 1000.
(** A track that has a library id only. *)
Definition uploaded : Track :=
  mkTrack (PStr "L") PNone PNone (PStr "Song") (PStr "Band") 1000.

(** A wrapped function that returns [None], and a callback that does
    nothing. *)
Definition returns_none : Async.function unit unit pyval :=
  fun _ s => (Return None, s).
Definition ignore : Async.callback_fn unit pyval pyval :=
  fun _ _ _ s => (Return tt, s).

End Mock.

(** ** The decorator [synchronized] *)

Module Sync.
Section Locks.
Context {St : Type} {lock : Type} `{Countable lock}.

(** A piece of code run by one thread among locks: the set of the locks
    held (by whomever) is passed along; [None] is the thread waiting for
    ever on a lock that is held. *)
Definition run (A : Type) : Type :=
  gset lock -> St -> option (outcome A * St * gset lock).

Definition ret {A} (a : A) : run A :=
  fun held s => Some (Return a, s, held).

Definition bind {A B} (m : run A) (k : A -> run B) : run B :=
  fun held s =>
    match m held s with
    | Some (Return a, s', held') => k a held' s'
    | Some (Raise e, s', held') => Some (Raise e, s', held')
    | None => None
    end.

(** Code that takes no lock. *)
Definition plain {A} (m : St -> outcome A * St) : run A :=
  fun held s => let '(o, s') := m s in Some (o, s', held).

(** [Lock.acquire()]: waits while the lock is held; a [Lock] is not
    reentrant. *)
Definition acquire (l : lock) : run unit :=
  fun held s =>
    if decide (l ∈ held) then None else Some (Return tt, s, held ∪ {[l]}).

(** [Lock.release()]: releasing a lock that is not held is a
    [RuntimeError]. *)
Definition release (l : lock) : run unit :=
  fun held s =>
    if decide (l ∈ held) then Some (Return tt, s, held ∖ {[l]})
    else Some (Raise (Exception "release unlocked lock"), s, held).

(** The inner function [wrapper] of [synchronized], [l] being the lock
    made for the decorated function: [try] acquire and call, [finally]
    release (an exception of the [finally] part replaces the outcome). *)
Definition synchronized {A} (l : lock) (func : run A) : run A :=
  fun held s =>
    match acquire l held s with
    | None => None
    | Some (Raise e, s1, held1) =>
        match release l held1 s1 with
        | Some (Return _, s2, held2) => Some (Raise e, s2, held2)
        | Some (Raise e', s2, held2) => Some (Raise e', s2, held2)
        | None => None
        end
    | Some (Return _, s1, held1) =>
        match func held1 s1 with
        | None => None
        | Some (o, s2, held2) =>
            match release l held2 s2 with
            | Some (Return _, s3, held3) => Some (o, s3, held3)
            | Some (Raise e', s3, held3) => Some (Raise e', s3, held3)
            | None => None
            end
        end
    end.

(** Code that leaves the locks as it found them, whenever it ends. *)
Definition balanced {A} (f : run A) : Prop :=
  forall held s o s' held', f held s = Some (o, s', held') -> held' = held.

End Locks.
Arguments run : clear implicits.
Arguments run _ _ {_ _} _.
End Sync.

(** The locks of the client: one per decorated function. *)
Inductive gp_lock : Type :=
| LockLogin
| LockGetAllTracks
| LockGetAllUserPlaylistContents
| LockCreateStation.

#[global] Instance gp_lock_eq_dec : EqDecision gp_lock.
Proof. solve_decision. Defined.

#[global] Instance gp_lock_countable : Countable gp_lock :=
  inj_countable'
    (fun l => match l with
              | LockLogin => 0
              | LockGetAllTracks => 1
              | LockGetAllUserPlaylistContents => 2
              | LockCreateStation => 3
              end)
    (fun n => match n with
              | 0 => LockLogin
              | 1 => LockGetAllTracks
              | 2 => LockGetAllUserPlaylistContents
              | _ => LockCreateStation
              end)
    (fun l => match l with
              | LockLogin | LockGetAllTracks
              | LockGetAllUserPlaylistContents | LockCreateStation => eq_refl
              end).

Section LockedClient.
Context {remote : Type} `{!Mobileclient remote} `{!Builtins}.

(** The decorated methods of [GP]. *)
Definition login_synchronized (email password device_id : pyval)
    : Sync.run (@GP remote) gp_lock reply :=
  Sync.synchronized LockLogin (Sync.plain (login email password device_id)).

Definition get_all_tracks_synchronized
    : Sync.run (@GP remote) gp_lock (list loc) :=
  Sync.synchronized LockGetAllTracks (Sync.plain get_all_tracks).

(** The part of [get_all_user_playlist_contents] after the call of
    [get_all_tracks]. *)
Definition fetch_playlists : @M remote (list Playlist) :=
  bind (remote_do CallGetAllUserPlaylistContents
                  mc_get_all_user_playlist_contents) (fun data =>
  bind (Playlist_from_data_many data) (fun ps =>
  bind (modify (set_cached_playlists (Some ps))) (fun _ =>
  ret ps))).

(** [get_all_user_playlist_contents] under its lock; the [get_all_tracks]
    it calls is the decorated one, with a lock of its own. *)
Definition get_all_user_playlist_contents_synchronized
    : Sync.run (@GP remote) gp_lock (list Playlist) :=
  Sync.synchronized LockGetAllUserPlaylistContents
    (Sync.bind (Sync.plain get_state) (fun g =>
       match cached_playlists g with
       | Some (p :: ps) => Sync.ret (p :: ps)
       | _ =>
           Sync.bind get_all_tracks_synchronized (fun _ =>
           Sync.plain fetch_playlists)
       end)).

End LockedClient.


(** ** Stations, search, stream URLs *)

(** The other calls on [gmusicapi.Mobileclient]. *)
Class Radio (remote : Type) : Type := {
  mc_create_station : string -> pyval -> remote -> outcome pyval * remote;
  mc_get_station_tracks :
    pyval -> Z -> remote -> outcome (list (gmap string pyval)) * remote;
  mc_get_stream_url : pyval -> remote -> outcome pyval * remote
}.

(** An [assert]ed result. *)
Inductive asserted (A : Type) : Type :=
| Asserted (a : A)
| AssertionError (msg : string).
Arguments Asserted {A} a.
Arguments AssertionError {A} msg.

(** [class Station]. *)
Record Station : Type := mkStation {
  _id : pyval;
  _tracks : list loc;
  _tracks_loaded : bool
}.

(** [class Artist]. *)
Record Artist : Type := mkArtist {
  artist_id : pyval;
  artist_name : pyval
}.

(** [class SearchResults]. *)
Record SearchResults : Type := mkSearchResults {
  artists : list Artist;
  tracks_found : list loc
}.

(** A search response: under [song_hits] and [artist_hits], lists of hits,
    of which the code reads the dictionary under [track], respectively
    [artist]. *)
Record search_data : Type := mkSearchData {
  song_hits : option (list (option (gmap string pyval)));
  artist_hits : option (list (option (gmap string pyval)))
}.

Class SearchClient (remote : Type) : Type := {
  mc_search : pyval -> remote -> outcome search_data * remote
}.

(** [str(v)], as [format] renders a value. *)
Definition py_str (v : pyval) : string :=
  match v with
  | PNone => "None"
  | PStr s => s
  | PInt z => DecimalString.NilZero.string_of_int (Z.to_int z)
  end.

Section Radio.
Context {remote : Type} `{!Mobileclient remote} `{!Builtins}.
Context `{!Radio remote} `{!SearchClient remote}.

Notation "'let*' x ':=' m 'in' k" := (bind m (fun x => k))
  (at level 10, x pattern, m at level 100, k at level 200).

(** [Station.__init__]. *)
Definition Station_init (station_id : pyval) : Station :=
  mkStation station_id [] false.

(** [Station.load_tracks]; the result is [self] after the two
    assignments. *)
Definition Station_load_tracks (self : Station) : @M remote Station :=
  let* data := remote_do (CallGetStationTracks (_id self) 100)
                         (mc_get_station_tracks (_id self) 100) in
  let* ts := Track_from_data_many data in
  ret (mkStation (_id self) ts true).

Definition not_loaded_msg : string :=
  ("Must call " ++ quoted ".load_tracks()" ++ " before "
   ++ quoted ".get_tracks()")%string.

(** [Station.get_tracks]. *)
Definition Station_get_tracks (self : Station) : asserted (list loc) :=
  if _tracks_loaded self then Asserted (_tracks self)
  else AssertionError not_loaded_msg.

(** [Track.create_station], without its lock. *)
Definition Track_create_station (self : loc) : @M remote Station :=
  let* g := get_state in
  let name := ("Station - " ++ py_str (title (deref self g)))%string in
  let* track_id := lift (TrackModel.id (deref self g)) in
  let* station_id := remote_do (CallCreateStation name track_id)
                               (mc_create_station name track_id) in
  Station_load_tracks (Station_init station_id).

(** [Artist.from_data] (one item, then many). *)
Definition Artist_from_data (data : gmap string pyval) : outcome Artist :=
  outcome_bind (getitem data "artistId") (fun aid =>
  outcome_bind (getitem data "name") (fun aname =>
  Return (mkArtist aid aname))).

Fixpoint Artist_from_data_many (data : list (gmap string pyval))
    : outcome (list Artist) :=
  match data with
  | [] => Return []
  | one :: rest =>
      outcome_bind (Artist_from_data one) (fun a =>
      outcome_bind (Artist_from_data_many rest) (fun others =>
      Return (a :: others)))
  end.

(** [[item[key] for item in hits]]. *)
Fixpoint collect (key : string) (hits : list (option (gmap string pyval)))
    : outcome (list (gmap string pyval)) :=
  match hits with
  | [] => Return []
  | Some d :: rest =>
      outcome_bind (collect key rest) (fun ds => Return (d :: ds))
  | None :: _ => Raise (KeyError key)
  end.

Definition under {A} (key : string) (field : option A) : outcome A :=
  match field with
  | Some a => Return a
  | None => Raise (KeyError key)
  end.

(** [SearchResults.from_data]: the tracks first, then the artists. *)
Definition SearchResults_from_data (data : search_data)
    : @M remote SearchResults :=
  let* hits := lift (under "song_hits" (song_hits data)) in
  let* track_items := lift (collect "track" hits) in
  let* ts := Track_from_data_many track_items in
  let* ahits := lift (under "artist_hits" (artist_hits data)) in
  let* artist_items := lift (collect "artist" ahits) in
  let* found := lift (Artist_from_data_many artist_items) in
  ret (mkSearchResults found ts).

(** [GP.search]. *)
Definition search (query : pyval) : @M remote SearchResults :=
  let* results := remote_do (CallSearch query) (mc_search query) in
  SearchResults_from_data results.

(** [GP.get_stream_url]. *)
Definition get_stream_url (stream_id : pyval) : @M remote pyval :=
  remote_do (CallGetStreamUrl stream_id) (mc_get_stream_url stream_id).

(** A value as the asynchronous wrapper passes it on: [None] apart. *)
Definition as_result (v : pyval) : option pyval :=
  match v with PNone => None | _ => Some v end.

(** [GP.get_stream_url_async]. *)
Definition get_stream_url_async :
    pyval -> option (Async.callback_fn (@GP remote) pyval loc) ->
    option (gmap string loc) ->
    outcome (Async.thread (@GP remote) pyval loc) :=
  Async.asynchronous
    (fun stream_id g =>
       match get_stream_url stream_id g with
       | (Return url, g') => (Return (as_result url), g')
       | (Raise e, g') => (Raise e, g')
       end).

(** [Track.get_url]: [self.id] is read by the caller, then the thread is
    started with [extra=dict(track=self)]. *)
Definition Track_get_url (self : loc)
    (callback : Async.callback_fn (@GP remote) pyval loc) (g : @GP remote)
    : outcome (Async.thread (@GP remote) pyval loc) :=
  match TrackModel.id (deref self g) with
  | Return stream_id =>
      get_stream_url_async stream_id (Some callback)
                           (Some {["track" := self]})
  | Raise e => Raise e
  end.

End Radio.

(** Position of the last element of a list that satisfies a test. *)
Fixpoint last_match {A} (P : A -> bool) (l : list A) : option nat :=
  match l with
  | [] => None
  | x :: rest =>
      match last_match P rest with
      | Some j => Some (S j)
      | None => if P x then Some 0 else None
      end
  end.

(** ** clay.songlist: the song items *)

Module SongList.

Definition STATE_IDLE : Z := 0.
Definition STATE_LOADING : Z := 1.
Definition STATE_PLAYING : Z := 2.
Definition STATE_PAUSED : Z := 3.

(** The attributes of a [SongListItem] that the list logic uses. *)
Record SongListItem : Type := mkSongListItem {
  track : loc;
  index : nat;
  state : Z
}.

(** The two numbers [update_text] shows between brackets. *)
Definition minutes (duration : Z) : Z := (duration / (1000 * 60))%Z.
Definition seconds (duration : Z) : Z := ((duration / 1000) mod 60)%Z.

(** [SongListItem.is_currently_played]. *)
Definition is_currently_played (self : SongListItem) : bool :=
  bool_decide (state self ∈ [STATE_LOADING; STATE_PLAYING; STATE_PAUSED]).

(** What the walker holds: song items, or the text of a placeholder
    ([urwid.Text]). *)
Inductive widget : Type :=
| Text (text : string)
| Song (item : SongListItem).

Section List.
Context {remote : Type}.

(** [current_track is not None and current_track == track]. *)
Definition is_current (g : @GP remote) (current_track : option loc)
    (t : loc) : bool :=
  match current_track with
  | Some current => TrackModel.__eq__ (deref current g) (deref t g)
  | None => false
  end.

(** The item made for a track: in state loading when the track is the
    current one, idle otherwise; its index is set later. *)
Definition item_for (g : @GP remote) (current_track : option loc)
    (t : loc) : SongListItem :=
  mkSongListItem t 0 (if is_current g current_track t then STATE_LOADING
                      else STATE_IDLE).

(** The loop of [SongListBox.tracks_to_songlist]; [current_track] is what
    the player reports. *)
Fixpoint tracks_to_songlist_loop (g : @GP remote)
    (current_track : option loc) (tracks : list loc) (index : nat)
    (items : list SongListItem) (current_index : option nat)
    : list SongListItem * option nat :=
  match tracks with
  | [] => (items, current_index)
  | t :: rest =>
      let playing := is_current g current_track t in
      let songitem :=
        mkSongListItem t 0 (if playing then STATE_LOADING else STATE_IDLE) in
      let current_index' :=
        if playing
        then match current_index with
             | None => Some index
             | Some i => Some i
             end
        else current_index in
      tracks_to_songlist_loop g current_track rest (S index)
                              (items ++ [songitem]) current_index'
  end.

Definition tracks_to_songlist (g : @GP remote) (current_track : option loc)
    (tracks : list loc) : list SongListItem * option nat :=
  tracks_to_songlist_loop g current_track tracks 0 [] None.

(** [SongListBox.update_indexes] over a list of song items. *)
Definition update_indexes (walker : list SongListItem) : list SongListItem :=
  imap (fun i item => mkSongListItem (track item) i (state item)) walker.

(** [songitem.track == track], the track of the item on the left. *)
Definition shows (g : @GP remote) (t : loc) (item : SongListItem) : bool :=
  TrackModel.__eq__ (deref (track item) g) (deref t g).

(** [songitem.set_state(state)]. *)
Definition set_state (s : Z) (item : SongListItem) : SongListItem :=
  mkSongListItem (track item) (index item) s.

(** The loop of [SongListBox.track_changed] from position [i] on: the
    widgets after the loop, and the position of the last [set_focus] call,
    [focus] if there is none. *)
Fixpoint track_changed_loop (g : @GP remote) (t : loc)
    (walker : list widget) (i : nat) (focus : option nat)
    : list widget * option nat :=
  match walker with
  | [] => ([], focus)
  | Text s :: rest =>
      let '(ws, f) := track_changed_loop g t rest (S i) focus in
      (Text s :: ws, f)
  | Song songitem :: rest =>
      if shows g t songitem
      then let '(ws, f) := track_changed_loop g t rest (S i) (Some i) in
           (Song (set_state STATE_LOADING songitem) :: ws, f)
      else if negb (Z.eqb (state songitem) STATE_IDLE)
      then let '(ws, f) := track_changed_loop g t rest (S i) focus in
           (Song (set_state STATE_IDLE songitem) :: ws, f)
      else let '(ws, f) := track_changed_loop g t rest (S i) focus in
           (Song songitem :: ws, f)
  end.

Definition track_changed (g : @GP remote) (t : loc) (walker : list widget)
    : list widget * option nat :=
  track_changed_loop g t walker 0 None.

(** What [track_changed] leaves of a widget. *)
Definition marked (g : @GP remote) (t : loc) (w : widget) : widget :=
  match w with
  | Text s => Text s
  | Song item =>
      Song (set_state (if shows g t item then STATE_LOADING else STATE_IDLE)
                      item)
  end.

Definition shown_at (g : @GP remote) (t : loc) (w : widget) : bool :=
  match w with
  | Text _ => false
  | Song item => shows g t item
  end.

(** [SongListBox.populate]: the new content of the walker, and the
    position [set_focus] is called with, if it is called. *)
Definition populate (g : @GP remote) (current_track : option loc)
    (tracks : list loc) : list SongListItem * option nat :=
  let '(items, current_index) := tracks_to_songlist g current_track tracks in
  let walker := update_indexes items in
  (walker,
   match current_index with
   | Some i => Some i
   | None => if decide (1 <= length walker) then Some 0 else None
   end).

End List.
End SongList.


(** ** clay.songlist: the library entries of the context menu *)

Module Menu.

(** What [NotificationArea.notify] is asked to show. *)
Inductive notification : Type :=
| TrackAdded
| AddFailed (reason : option exn)
| TrackRemoved
| RemoveFailed (reason : option exn).

Section Menu.
Context {remote : Type} `{!Mobileclient remote} `{!Builtins}.

(** The program state of the threads: the client and the notifications
    shown so far. *)
Definition screen : Type := (@GP remote * list notification)%type.

(** Truth value of the [result] and of the [error] a callback receives:
    [None] is false, an exception is true. *)
Definition result_truthy (result : option reply) : bool :=
  match result with
  | Some r => reply_truthy r
  | None => false
  end.

Definition error_truthy (error : option exn) : bool :=
  match error with Some _ => true | None => false end.

Definition notify (n : notification) (s : screen) : outcome unit * screen :=
  (Return tt, (fst s, snd s ++ [n])).

(** The callbacks [on_add_to_my_library] and [on_remove_from_my_library]
    of [SongListBoxPopup]. *)
Definition on_add_to_my_library
    : Async.callback_fn screen reply pyval :=
  fun result error _ s =>
    if error_truthy error || negb (result_truthy result)
    then notify (AddFailed error) s
    else notify TrackAdded s.

Definition on_remove_from_my_library
    : Async.callback_fn screen reply pyval :=
  fun result error _ s =>
    if error_truthy error || negb (result_truthy result)
    then notify (RemoveFailed error) s
    else notify TrackRemoved s.

(** [Track.add_to_my_library] and [Track.remove_from_my_library], which
    hand over to the client, as the functions the wrapper decorates. *)
Definition Track_add_to_my_library : Async.function screen loc reply :=
  fun self s =>
    let '(o, g') := add_to_my_library self (fst s) in
    (match o with Return r => Return (Some r) | Raise e => Raise e end,
     (g', snd s)).

Definition Track_remove_from_my_library : Async.function screen loc reply :=
  fun self s =>
    let '(o, g') := remove_from_my_library self (fst s) in
    (match o with Return r => Return (Some r) | Raise e => Raise e end,
     (g', snd s)).

(** The menu entries: the asynchronous call with the callback, no
    [extra]. *)
Definition menu_add_to_my_library (t : loc)
    : outcome (Async.thread screen reply pyval) :=
  Async.asynchronous Track_add_to_my_library t
                     (Some on_add_to_my_library) None.

Definition menu_remove_from_my_library (t : loc)
    : outcome (Async.thread screen reply pyval) :=
  Async.asynchronous Track_remove_from_my_library t
                     (Some on_remove_from_my_library) None.

End Menu.
End Menu.


(** ** A scripted service for stations and search *)

Module MockRadio.
Import Mock.

Definition artist1 : gmap string pyval :=
  track_data [("artistId", PStr "A1"); ("name", PStr "A")].

Definition search_response : search_data :=
  mkSearchData (Some [Some song1; Some song2]) (Some [Some artist1]).

#[global] Instance radio : Radio session := {|
  mc_create_station := fun _ _ s => (Return (PStr "station-1"), s);
  mc_get_station_tracks := fun _ _ s => (Return (library s), s);
  mc_get_stream_url := fun _ s => (Return (PStr "https://stream/1"), s)
|}.

#[global] Instance search_client : SearchClient session := {|
  mc_search := fun _ s => (Return search_response, s)
|}.

(** The track that [song1] parses to. *)
Definition track1 : Track :=
  mkTrack (PStr "lib-1") PNone (PStr "T1") (PStr "One") (PStr "A") 1000.

(** A thread-free piece of code over a counter, for the locks. *)
Definition tick : Sync.run nat gp_lock unit :=
  Sync.plain (fun n => (Return tt, S n)).

End MockRadio.

(** * Properties *)

(** ** Track equality *)

Module TrackFacts.
Import TrackModel Mock.

Lemma py_eq_true (a b : pyval) : py_eq a b = true <-> a = b.
Proof. unfold py_eq. apply bool_decide_eq_true. Qed.

Lemma py_eq_sym (a b : pyval) : py_eq a b = py_eq b a.
Proof.
  unfold py_eq. destruct (decide (a = b)) as [->|Hne].
  - reflexivity.
  - rewrite !bool_decide_eq_false_2; congruence.
Qed.

Lemma leading_kind_truthy (t : Track) (k : id_kind) :
  leading_kind t = Some k -> truthy (field k t) = true.
Proof.
  unfold leading_kind.
  destruct (truthy (track_id t)) eqn:Ht; [intros [= <-]; exact Ht|].
  destruct (truthy (store_id t)) eqn:Hs; [intros [= <-]; exact Hs|].
  destruct (truthy (id_ t)) eqn:Hi; [intros [= <-]; exact Hi|].
  discriminate.
Qed.

(** With a track id or a store id in the lead, [__eq__] compares that one
    field. *)
Lemma eq_unfold (a b : Track) (k : id_kind) :
  leading_kind a = Some k -> k <> KLibraryId ->
  __eq__ a b = py_eq (field k a) (field k b).
Proof.
  unfold leading_kind, __eq__.
  destruct (truthy (track_id a)); [intros [= <-] _; reflexivity|].
  destruct (truthy (store_id a)); [intros [= <-] _; reflexivity|].
  destruct (truthy (id_ a)); [intros [= <-] Hk; contradiction|].
  discriminate.
Qed.

(** A track without any identifier equals nothing. *)
Lemma eq_no_identifier (a b : Track) :
  leading_kind a = None -> __eq__ a b = false.
Proof.
  unfold leading_kind, __eq__.
  destruct (truthy (track_id a)); [discriminate|].
  destruct (truthy (store_id a)); [discriminate|].
  destruct (truthy (id_ a)); [discriminate|reflexivity].
Qed.

(** The library-id branch compares [self.store_id] with [other.id_]: a
    track known by its library id alone does not equal itself. *)
Example eq_uploaded_itself : __eq__ uploaded uploaded = false.
Proof. reflexivity. Qed.

(** C3, as stated, fails: equality is not symmetric.  The two tracks share
    the store id [s]; the one with a track id compares track ids (and
    differs), the other compares store ids (and agrees). *)
Lemma eq_not_symmetric :
  __eq__ in_playlist in_store = false /\ __eq__ in_store in_playlist = true.
Proof. split; reflexivity. Qed.

(** C3, amended: [a == b] is decided by the leading identifier of [a]
    (its track id, else its store id): the two are equal exactly when [b]
    has the same value in that same field (which is then populated in [b]
    as well), whatever the other fields hold; between two tracks with the
    same leading kind the comparison is symmetric. *)
Theorem eq_leading_identifier (a b : Track) (k : id_kind) :
  leading_kind a = Some k -> k <> KLibraryId ->
  (__eq__ a b = true <->
     truthy (field k b) = true /\ field k b = field k a) /\
  (leading_kind b = Some k -> __eq__ b a = __eq__ a b).
Proof.
  intros Hk Hne. split.
  - rewrite (eq_unfold a b k Hk Hne), py_eq_true. split.
    + intros Heq. split; [|symmetry; exact Heq].
      rewrite <- Heq. exact (leading_kind_truthy a k Hk).
    + intros [_ Heq]. symmetry. exact Heq.
  - intros Hb.
    rewrite (eq_unfold a b k Hk Hne), (eq_unfold b a k Hb Hne).
    apply py_eq_sym.
Qed.

Lemma eq_leading_identifier_witness :
  leading_kind in_store = Some KStoreId /\ KStoreId <> KLibraryId /\
  ((__eq__ in_store in_playlist = true <->
      truthy (field KStoreId in_playlist) = true /\
      field KStoreId in_playlist = field KStoreId in_store) /\
   (leading_kind in_playlist = Some KStoreId ->
      __eq__ in_playlist in_store = __eq__ in_store in_playlist)).
Proof.
  split; [reflexivity|]. split; [discriminate|].
  apply (eq_leading_identifier in_store in_playlist KStoreId);
    [reflexivity|discriminate].
Defined.

End TrackFacts.

(** ** The asynchronous wrapper *)

Module AsyncFacts.
Import Async Mock.

Section Wrapper.
Context {St Args R V : Type}.
Implicit Types (func : function St Args R) (callback : callback_fn St R V).
Implicit Types (w : world St R V) (extra : gmap string V).

Lemma invoke_delivered callback result error extra w :
  delivered (snd (invoke callback result error extra w))
  = delivered w ++ [mkCall result error extra].
Proof.
  unfold invoke. destruct (callback result error extra (state w)).
  reflexivity.
Qed.

Lemma invoke_outcome callback result error extra w :
  fst (invoke callback result error extra w)
  = fst (callback result error extra (state w)).
Proof.
  unfold invoke. destruct (callback result error extra (state w)).
  reflexivity.
Qed.

(** What the thread body delivers, by the outcome of the wrapped
    function. *)
Lemma process_deliveries func args callback extra w :
  deliveries (process func args callback extra) w
  = match fst (func args (state w)) with
    | Return result => [mkCall result None extra]
    | Raise error => [mkCall None (Some error) extra]
    end.
Proof.
  unfold deliveries, process.
  destruct (func args (state w)) as [[result|error] s]; simpl;
    rewrite invoke_delivered; simpl; apply drop_app_length.
Qed.

(** C2: called with a callback, the wrapper returns (it starts the thread
    and raises nothing, whatever the wrapped function does); the thread
    invokes the callback exactly once, with [(r, None, **extra)] when the
    function returns [r] and with [(None, e, **extra)] when it raises [e];
    the thread then ends as the callback does, so [e] goes no further. *)
Theorem asynchronous_callback_once func args callback kw_extra w :
  let extra := default ∅ kw_extra in
  exists t,
    asynchronous func args (Some callback) kw_extra = Return t /\
    match func args (state w) with
    | (Return r, s) =>
        deliveries t w = [mkCall r None extra] /\
        fst (t w) = fst (callback r None extra s)
    | (Raise e, s) =>
        deliveries t w = [mkCall None (Some e) extra] /\
        fst (t w) = fst (callback None (Some e) extra s)
    end.
Proof.
  intros extra. exists (process func args callback extra).
  split; [reflexivity|].
  pose proof (process_deliveries func args callback extra w) as Hd.
  unfold process in *.
  destruct (func args (state w)) as [[r|e] s]; simpl in *;
    (split; [exact Hd | apply invoke_outcome]).
Qed.

(** C7, amended: the pair delivered has a non-null error exactly when the
    function raised, and then a null result; when the function returned,
    the error is null and the result is the returned value as it is (null
    when the function returned [None]); the two are never both non-null. *)
Theorem delivered_pair func args callback extra w :
  exists c,
    deliveries (process func args callback extra) w = [c] /\
    both_non_null c = false /\
    match fst (func args (state w)) with
    | Return r => call_result c = r /\ call_error c = None
    | Raise e => call_result c = None /\ call_error c = Some e
    end.
Proof.
  rewrite process_deliveries.
  destruct (fst (func args (state w))) as [r|e]; eexists;
    (split; [reflexivity|]); simpl.
  - split; [|split; reflexivity].
    unfold both_non_null. simpl. apply andb_false_r.
  - split; [|split; reflexivity].
    unfold both_non_null. reflexivity.
Qed.

End Wrapper.

(** C7, as stated, fails: a function that returns [None] has
    [(None, None)] delivered. *)
Lemma both_null_delivered :
  deliveries (process returns_none tt ignore ∅) (mkWorld tt [])
  = [mkCall None None ∅] /\
  exactly_one_null (mkCall (R:=pyval) (V:=pyval) None None ∅) = false.
Proof. split; reflexivity. Qed.

End AsyncFacts.

(** ** The client and its caches *)

Section ClientFacts.
Context {remote : Type} `{!Mobileclient remote} `{!Builtins}.
Implicit Types (g : @GP remote) (l : loc) (ts : list loc).

(** *** Code that only touches the object store *)

Lemma same_client_refl g : same_client g g.
Proof. repeat split. Qed.

Lemma same_client_trans g1 g2 g3 :
  same_client g1 g2 -> same_client g2 g3 -> same_client g1 g3.
Proof.
  unfold same_client. intros (?&?&?&?&?) (?&?&?&?&?).
  repeat split; congruence.
Qed.

Lemma same_client_set_heap h g : same_client g (set_heap h g).
Proof. repeat split. Qed.

Lemma heap_only_ret {A} (a : A) : heap_only (ret (remote:=remote) a).
Proof. intros g. apply same_client_refl. Qed.

Lemma heap_only_raise {A} e : heap_only (raise (remote:=remote) (A:=A) e).
Proof. intros g. apply same_client_refl. Qed.

Lemma heap_only_lift {A} (o : outcome A) : heap_only (lift (remote:=remote) o).
Proof. intros g. apply same_client_refl. Qed.

Lemma heap_only_get_state : heap_only (get_state (remote:=remote)).
Proof. intros g. apply same_client_refl. Qed.

Lemma heap_only_bind {A B} (m : M A) (k : A -> M B) :
  heap_only m -> (forall a, heap_only (k a)) ->
  heap_only (bind (remote:=remote) m k).
Proof.
  intros Hm Hk g. unfold bind. specialize (Hm g).
  destruct (m g) as [[a|e] g1]; simpl in *; [|exact Hm].
  eapply same_client_trans; [exact Hm|apply Hk].
Qed.

Lemma heap_only_for_each {A B} (f : A -> M B) (xs : list A) :
  (forall x, heap_only (f x)) -> heap_only (for_each (remote:=remote) f xs).
Proof.
  intros Hf. induction xs as [|x xs IH]; simpl.
  - apply heap_only_ret.
  - apply heap_only_bind; [apply Hf|]. intros y.
    apply heap_only_bind; [exact IH|]. intros ys. apply heap_only_ret.
Qed.

Lemma heap_only_new_track (t : Track) : heap_only (new_track (remote:=remote) t).
Proof. intros g. apply same_client_set_heap. Qed.

Lemma heap_only_set_track_id l v : heap_only (set_track_id (remote:=remote) l v).
Proof. intros g. apply same_client_set_heap. Qed.

Lemma heap_only_Track_from_data data : heap_only (remote:=remote) (Track_from_data data).
Proof.
  apply heap_only_bind; [apply heap_only_lift|].
  intros t. apply heap_only_new_track.
Qed.

Lemma heap_only_Track_from_data_many data :
  heap_only (remote:=remote) (Track_from_data_many data).
Proof. apply heap_only_for_each, heap_only_Track_from_data. Qed.

Lemma heap_only_Track_copy l : heap_only (remote:=remote) (Track_copy l).
Proof.
  apply heap_only_bind; [apply heap_only_get_state|].
  intros g. apply heap_only_new_track.
Qed.

Lemma heap_only_get_track_by_id v : heap_only (remote:=remote) (get_track_by_id v).
Proof.
  apply heap_only_bind; [apply heap_only_get_state|].
  intros g. destruct (cached_tracks g);
    [apply heap_only_ret|apply heap_only_raise].
Qed.

Lemma heap_only_playlist_item_to_track item :
  heap_only (remote:=remote) (playlist_item_to_track item).
Proof.
  unfold playlist_item_to_track. destruct (item_track item).
  - apply heap_only_Track_from_data.
  - apply heap_only_bind; [apply heap_only_lift|]. intros v.
    apply heap_only_bind; [apply heap_only_get_track_by_id|]. intros found.
    apply heap_only_bind.
    { destruct found; [apply heap_only_Track_copy|apply heap_only_raise]. }
    intros track. apply heap_only_bind; [apply heap_only_lift|]. intros tid.
    apply heap_only_bind; [apply heap_only_set_track_id|]. intros _.
    apply heap_only_ret.
Qed.

Lemma heap_only_playlist_items_loop items results :
  heap_only (remote:=remote) (playlist_items_loop items results).
Proof.
  revert results. induction items as [|item items IH]; intros results; simpl.
  - apply heap_only_ret.
  - apply heap_only_bind; [apply heap_only_playlist_item_to_track|].
    intros track. apply IH.
Qed.

Lemma heap_only_Playlist_from_data data : heap_only (remote:=remote) (Playlist_from_data data).
Proof.
  apply heap_only_bind; [apply heap_only_lift|]. intros pid.
  apply heap_only_bind; [apply heap_only_lift|]. intros pname.
  apply heap_only_bind.
  { destruct (pl_tracks data); [apply heap_only_ret|apply heap_only_raise]. }
  intros items.
  apply heap_only_bind; [apply heap_only_playlist_items_loop|].
  intros rs. apply heap_only_ret.
Qed.

Lemma heap_only_Playlist_from_data_many data :
  heap_only (remote:=remote) (Playlist_from_data_many data).
Proof. apply heap_only_for_each, heap_only_Playlist_from_data. Qed.

(** *** get_track_by_id *)

Lemma matches_id_true (v : pyval) (t : Track) :
  matches_id v t = true <-> id_ t = v \/ store_id t = v \/ track_id t = v.
Proof.
  unfold matches_id, tuple_contains, py_eq. simpl.
  rewrite !orb_true_iff, !bool_decide_eq_true.
  intuition congruence.
Qed.

Lemma find_track_Some g v ts l :
  find_track g v ts = Some l -> l ∈ ts /\ matches_id v (deref l g) = true.
Proof.
  induction ts as [|l0 ts IH]; simpl; [discriminate|].
  destruct (matches_id v (deref l0 g)) eqn:Hm.
  - intros [= <-]. split; [apply list_elem_of_here|exact Hm].
  - intros Hf. destruct (IH Hf) as [Hin Hl].
    split; [apply list_elem_of_further, Hin|exact Hl].
Qed.

Lemma find_track_None g v ts :
  find_track g v ts = None ->
  forall l, l ∈ ts -> matches_id v (deref l g) = false.
Proof.
  induction ts as [|l0 ts IH]; simpl; intros Hf l Hin.
  - inversion Hin.
  - destruct (matches_id v (deref l0 g)) eqn:Hm; [discriminate|].
    apply elem_of_cons in Hin as [->|Hin]; [exact Hm|].
    apply IH; assumption.
Qed.

(** The lookup reads the store only at the cached references. *)
Lemma find_track_ext g g' v ts :
  (forall l, l ∈ ts -> deref l g' = deref l g) ->
  find_track g' v ts = find_track g v ts.
Proof.
  induction ts as [|l0 ts IH]; simpl; intros Hsame; [reflexivity|].
  rewrite (Hsame l0) by apply list_elem_of_here.
  rewrite IH; [reflexivity|].
  intros l Hin. apply Hsame, list_elem_of_further, Hin.
Qed.

(** The track found is the first cached one that carries the id. *)
Lemma find_track_split g v ts l :
  find_track g v ts = Some l ->
  exists before after,
    ts = before ++ l :: after /\
    carries v (deref l g) /\
    Forall (fun c => ~ carries v (deref c g)) before.
Proof.
  induction ts as [|l0 ts IH]; simpl; [discriminate|].
  destruct (matches_id v (deref l0 g)) eqn:Hm.
  - intros [= <-]. exists [], ts. split; [reflexivity|].
    split; [apply matches_id_true, Hm|constructor].
  - intros Hf. destruct (IH Hf) as (before & after & -> & Hc & Hall).
    exists (l0 :: before), after. split; [reflexivity|].
    split; [exact Hc|]. constructor; [|exact Hall].
    intros Hcar. apply matches_id_true in Hcar. congruence.
Qed.

Lemma find_track_carried g v ts c :
  c ∈ ts -> carries v (deref c g) -> is_Some (find_track g v ts).
Proof.
  intros Hin Hcar. destruct (find_track g v ts) as [l|] eqn:Hf; [eauto|].
  apply matches_id_true in Hcar.
  rewrite (find_track_None _ _ _ Hf c Hin) in Hcar. discriminate.
Qed.


(** An entry stands for a track exactly when it can be converted. *)
Lemma resolvable_convertible g cache (item : playlist_item) :
  resolvable g cache item = true <-> convertible g cache item.
Proof.
  unfold resolvable, item_value, convertible.
  destruct (item_track item) as [data|].
  - destruct (parse_track data); simpl; split; congruence.
  - destruct (item_fields item !! "trackId") as [tid|].
    + destruct (find_track g tid cache) as [c|] eqn:Hf.
      * split; [intros _|reflexivity]. exists tid. split; [reflexivity|].
        destruct (find_track_Some _ _ _ _ Hf) as [Hin Hm].
        exists c. split; [exact Hin|apply matches_id_true, Hm].
      * split; [discriminate|]. intros (tid' & [= <-] & c & Hin & Hcar).
        destruct (find_track_carried g tid cache c Hin Hcar) as [x Hx].
        congruence.
    + split; [discriminate|]. intros (tid & Hk & _). discriminate.
Qed.

Lemma Forall_resolvable_convertible g cache (items : list playlist_item) :
  Forall (fun item => resolvable g cache item = true) items
  <-> Forall (convertible g cache) items.
Proof.
  split; intros Hall; (eapply Forall_impl; [exact Hall|]); intros x;
    apply resolvable_convertible.
Qed.

Lemma get_track_by_id_cached g v ts :
  cached_tracks g = Some ts ->
  get_track_by_id v g = (Return (find_track g v ts), g).
Proof. intros Hc. unfold get_track_by_id, bind, get_state. rewrite Hc. reflexivity. Qed.

Lemma get_track_by_id_cleared g v :
  cached_tracks g = None ->
  get_track_by_id v g = (Raise (TypeError not_iterable_msg), g).
Proof. intros Hc. unfold get_track_by_id, bind, get_state. rewrite Hc. reflexivity. Qed.

(** C6, amended: with a track sequence in the cache (an empty one
    included), [get_track_by_id] returns [None] when no cached track has
    the identifier as its library id, store id or track id, and otherwise
    returns a cached track that has it; the state is left as it was.  With
    the cache cleared the call raises [TypeError]. *)
Theorem get_track_by_id_result g (any_id : pyval) :
  match cached_tracks g with
  | Some ts =>
      exists r, get_track_by_id any_id g = (Return r, g) /\
        match r with
        | Some l =>
            l ∈ ts /\
            (id_ (deref l g) = any_id \/ store_id (deref l g) = any_id
             \/ track_id (deref l g) = any_id)
        | None =>
            forall l, l ∈ ts ->
              ~ (id_ (deref l g) = any_id \/ store_id (deref l g) = any_id
                 \/ track_id (deref l g) = any_id)
        end
  | None => get_track_by_id any_id g = (Raise (TypeError not_iterable_msg), g)
  end.
Proof.
  destruct (cached_tracks g) as [ts|] eqn:Hc.
  - exists (find_track g any_id ts).
    split; [apply get_track_by_id_cached, Hc|].
    destruct (find_track g any_id ts) as [l|] eqn:Hf.
    + destruct (find_track_Some _ _ _ _ Hf) as [Hin Hm].
      split; [exact Hin|]. apply matches_id_true, Hm.
    + intros l Hin Hm. apply matches_id_true in Hm.
      rewrite (find_track_None _ _ _ Hf l Hin) in Hm. discriminate.
  - apply get_track_by_id_cleared, Hc.
Qed.

(** *** get_all_tracks *)

Lemma fetches_log_call g c :
  fetches (log_call c g)
  = fetches g + (if decide (c = CallGetAllSongs) then 1 else 0).
Proof.
  unfold fetches, log_call. simpl. rewrite filter_app, length_app. simpl.
  rewrite filter_cons, filter_nil. destruct (decide (c = CallGetAllSongs));
    reflexivity.
Qed.

Lemma same_client_fetches g g' : same_client g g' -> fetches g' = fetches g.
Proof. intros (_&_&_&_&Hc). unfold fetches. rewrite Hc. reflexivity. Qed.

(** Cache hit: a non-empty cached sequence is returned as it is, and
    nothing else happens. *)
Lemma get_all_tracks_hit g t ts :
  cached_tracks g = Some (t :: ts) ->
  get_all_tracks g = (Return (t :: ts), g).
Proof.
  intros Hc. unfold get_all_tracks, bind, get_state. rewrite Hc. reflexivity.
Qed.

(** Cache miss: one fetch; on success the parsed tracks become the cache. *)
Lemma get_all_tracks_miss g :
  cache_truthy (cached_tracks g) = false ->
  let g1 := log_call CallGetAllSongs g in
  let '(o, r) := mc_get_all_songs (mobile_client g) in
  let g2 := set_mobile_client r g1 in
  get_all_tracks g =
    match o with
    | Return data =>
        match Track_from_data_many data g2 with
        | (Return ts, g3) => (Return ts, set_cached_tracks (Some ts) g3)
        | (Raise e, g3) => (Raise e, g3)
        end
    | Raise e => (Raise e, g2)
    end.
Proof.
  intros Hc. simpl.
  assert (Hrun : get_all_tracks g =
    bind (remote_do CallGetAllSongs mc_get_all_songs) (fun data =>
    bind (Track_from_data_many data) (fun ts =>
    bind (modify (set_cached_tracks (Some ts))) (fun _ => ret ts))) g).
  { unfold get_all_tracks at 1. unfold bind at 1, get_state.
    destruct (cached_tracks g) as [[|]|]; try reflexivity; discriminate. }
  rewrite Hrun. unfold bind, remote_do, modify, ret. simpl.
  destruct (mc_get_all_songs (mobile_client g)) as [[data|e] r]; [|reflexivity].
  destruct (Track_from_data_many data _) as [[ts|e] g3]; reflexivity.
Qed.

(** What a call of [get_all_tracks] does to the client state. *)
Lemma get_all_tracks_effect g :
  let o := fst (get_all_tracks g) in
  let g' := snd (get_all_tracks g) in
  cached_playlists g' = cached_playlists g /\
  fired g' = fired g /\
  fetches g' <= fetches g + 1 /\
  match o with
  | Return ts => cached_tracks g' = Some ts
  | Raise _ => cached_tracks g' = cached_tracks g
  end.
Proof.
  simpl. destruct (cache_truthy (cached_tracks g)) eqn:Hc.
  - destruct (cached_tracks g) as [[|t ts]|] eqn:Hg; try discriminate.
    rewrite (get_all_tracks_hit g t ts Hg). simpl.
    repeat split; [lia|exact Hg].
  - pose proof (get_all_tracks_miss g Hc) as Hm. simpl in Hm.
    pose proof (fetches_log_call g CallGetAllSongs) as Hlog.
    rewrite decide_True in Hlog by reflexivity.
    destruct (mc_get_all_songs (mobile_client g)) as [[data|e] r].
    + pose proof (heap_only_Track_from_data_many data
        (set_mobile_client r (log_call CallGetAllSongs g))) as Hs.
      destruct (Track_from_data_many data _) as [[ts|e] g3];
        rewrite Hm; simpl in *;
        pose proof (same_client_fetches _ _ Hs) as Hf3;
        destruct Hs as (_&Ht&Hp&Hf&_);
        (split; [exact Hp|]); (split; [exact Hf|]);
        (split; [|first [reflexivity|exact Ht]]);
        change (fetches g3 <= fetches g + 1); rewrite Hf3;
        change (fetches (log_call CallGetAllSongs g) <= fetches g + 1); lia.
    + rewrite Hm. simpl. repeat split.
      change (fetches (log_call CallGetAllSongs g) <= fetches g + 1). lia.
Qed.



(** *** invalidate_caches, login, add and remove *)

Lemma invalidate_caches_run g :
  invalidate_caches g = (Return tt, invalidated g).
Proof. reflexivity. Qed.

Lemma remote_do_run {A} (c : remote_call)
    (f : remote -> outcome A * remote) g :
  remote_do c f g
  = (fst (f (mobile_client g)), called c (snd (f (mobile_client g))) g).
Proof.
  unfold remote_do, called. simpl. destruct (f (mobile_client g)). reflexivity.
Qed.

(** [login], step by step. *)
Lemma login_run email password device_id g :
  login email password device_id g =
    let '(o1, r1) := mc_logout (mobile_client g) in
    let g1 := called CallLogout r1 g in
    match o1 with
    | Raise e => (Raise e, g1)
    | Return _ =>
        let prev_auth_state := mc_is_authenticated r1 in
        let '(o2, r2) := mc_login email password device_id r1 in
        let g2 := called CallLogin r2 (invalidated g1) in
        match o2 with
        | Raise e => (Raise e, g2)
        | Return result =>
            (Return result,
             if negb (Bool.eqb prev_auth_state (mc_is_authenticated r2))
             then log_event (AuthStateChanged (mc_is_authenticated r2)) g2
             else g2)
        end
    end.
Proof.
  unfold login. unfold bind at 1. rewrite remote_do_run.
  destruct (mc_logout (mobile_client g)) as [[[]|e] r1]; simpl; [|reflexivity].
  unfold bind at 1. rewrite invalidate_caches_run.
  unfold bind at 1. unfold is_authenticated at 1, bind at 1, get_state, ret.
  unfold bind at 1. rewrite remote_do_run. simpl.
  destruct (mc_login email password device_id r1) as [[result|e] r2]; simpl;
    [|reflexivity].
  unfold bind, is_authenticated, get_state, ret, fire, modify. simpl.
  destruct (negb _); reflexivity.
Qed.

Lemma add_to_my_library_run track g :
  add_to_my_library track g =
    match TrackModel.id (deref track g) with
    | Raise e => (Raise e, g)
    | Return tid =>
        let '(o, r) := mc_add_store_tracks tid (mobile_client g) in
        let g1 := called (CallAddStoreTracks tid) r g in
        match o with
        | Raise e => (Raise e, g1)
        | Return result =>
            (Return result,
             if reply_truthy result then invalidated g1 else g1)
        end
    end.
Proof.
  unfold add_to_my_library, bind, get_state, lift.
  destruct (TrackModel.id (deref track g)) as [tid|e]; [|reflexivity].
  rewrite remote_do_run.
  destruct (mc_add_store_tracks tid (mobile_client g)) as [[result|e] r];
    simpl; [|reflexivity].
  destruct (reply_truthy result); reflexivity.
Qed.

Lemma remove_from_my_library_run track g :
  remove_from_my_library track g =
    match TrackModel.id (deref track g) with
    | Raise e => (Raise e, g)
    | Return tid =>
        let '(o, r) := mc_delete_songs tid (mobile_client g) in
        let g1 := called (CallDeleteSongs tid) r g in
        match o with
        | Raise e => (Raise e, g1)
        | Return result =>
            (Return result,
             if reply_truthy result then invalidated g1 else g1)
        end
    end.
Proof.
  unfold remove_from_my_library, bind, get_state, lift.
  destruct (TrackModel.id (deref track g)) as [tid|e]; [|reflexivity].
  rewrite remote_do_run.
  destruct (mc_delete_songs tid (mobile_client g)) as [[result|e] r];
    simpl; [|reflexivity].
  destruct (reply_truthy result); reflexivity.
Qed.

(** C8, amended: once the remote logout has returned, a [login] that
    completes fires [auth_state_changed] (once, after the invalidation
    event, with the new state) exactly when the state after the remote
    authentication differs from the state captured after logout and
    invalidation, and fires none when the state is unchanged; a [login]
    whose remote authentication raises fires no such event. *)
Theorem login_auth_state_changed email password device_id g r1 :
  mc_logout (mobile_client g) = (Return tt, r1) ->
  let prev := mc_is_authenticated r1 in
  let g' := snd (login email password device_id g) in
  let now := mc_is_authenticated (mobile_client g') in
  match fst (login email password device_id g) with
  | Return _ =>
      fired g' = fired g ++ [CachesInvalidated]
                 ++ (if Bool.eqb prev now then [] else [AuthStateChanged now])
  | Raise _ => fired g' = fired g ++ [CachesInvalidated]
  end.
Proof.
  intros Hout. simpl. rewrite login_run, Hout.
  destruct (mc_login email password device_id r1) as [[result|e] r2]; simpl;
    [|reflexivity].
  destruct (Bool.eqb (mc_is_authenticated r1) (mc_is_authenticated r2)) eqn:Hb;
    simpl; rewrite Hb; simpl.
  - reflexivity.
  - rewrite <- app_assoc. reflexivity.
Qed.


(** *** get_all_user_playlist_contents *)

Lemma get_all_user_playlist_contents_hit g p ps :
  cached_playlists g = Some (p :: ps) ->
  get_all_user_playlist_contents g = (Return (p :: ps), g).
Proof.
  intros Hc. unfold get_all_user_playlist_contents, bind, get_state.
  rewrite Hc. reflexivity.
Qed.

Lemma get_all_user_playlist_contents_miss g :
  cache_truthy (cached_playlists g) = false ->
  get_all_user_playlist_contents g =
    match get_all_tracks g with
    | (Raise e, g1) => (Raise e, g1)
    | (Return _, g1) =>
        let '(o, r) := mc_get_all_user_playlist_contents (mobile_client g1) in
        let g2 := called CallGetAllUserPlaylistContents r g1 in
        match o with
        | Raise e => (Raise e, g2)
        | Return data =>
            match Playlist_from_data_many data g2 with
            | (Return ps, g3) => (Return ps, set_cached_playlists (Some ps) g3)
            | (Raise e, g3) => (Raise e, g3)
            end
        end
    end.
Proof.
  intros Hc.
  assert (Hrun : get_all_user_playlist_contents g =
    bind get_all_tracks (fun _ =>
    bind (remote_do CallGetAllUserPlaylistContents
                    mc_get_all_user_playlist_contents) (fun data =>
    bind (Playlist_from_data_many data) (fun ps =>
    bind (modify (set_cached_playlists (Some ps))) (fun _ => ret ps)))) g).
  { unfold get_all_user_playlist_contents at 1. unfold bind at 1, get_state.
    destruct (cached_playlists g) as [[|]|]; try reflexivity; discriminate. }
  rewrite Hrun. unfold bind at 1.
  destruct (get_all_tracks g) as [[ts|e] g1]; [|reflexivity].
  unfold bind at 1. rewrite remote_do_run.
  destruct (mc_get_all_user_playlist_contents (mobile_client g1))
    as [[data|e] r]; simpl; [|reflexivity].
  unfold bind, modify, ret.
  destruct (Playlist_from_data_many data _) as [[ps|e] g3]; reflexivity.
Qed.

(** What a call of [get_all_user_playlist_contents] does to the caches:
    the track cache changes as by [get_all_tracks] at most, and the
    playlist cache is assigned only on return, with the track cache
    filled. *)
Lemma get_all_user_playlist_contents_effect g :
  cache_truthy (cached_playlists g) = false ->
  let o := fst (get_all_user_playlist_contents g) in
  let g' := snd (get_all_user_playlist_contents g) in
  match o with
  | Return ps =>
      cached_playlists g' = Some ps /\ holds_sequence (cached_tracks g') = true
  | Raise _ =>
      cached_playlists g' = cached_playlists g /\
      (cached_tracks g' = cached_tracks g \/
       holds_sequence (cached_tracks g') = true)
  end.
Proof.
  intros Hc. simpl. rewrite (get_all_user_playlist_contents_miss g Hc).
  pose proof (get_all_tracks_effect g) as (Hp&_&_&Ht). simpl in Hp, Ht.
  destruct (get_all_tracks g) as [[ts|e] g1]; simpl in *.
  2:{ split; [exact Hp|left; exact Ht]. }
  destruct (mc_get_all_user_playlist_contents (mobile_client g1))
    as [[data|e] r]; simpl.
  2:{ split; [exact Hp|right]. rewrite Ht. reflexivity. }
  pose proof (heap_only_Playlist_from_data_many data
    (called CallGetAllUserPlaylistContents r g1)) as Hs.
  destruct (Playlist_from_data_many data _) as [[ps|e] g3]; simpl in *;
    destruct Hs as (_&Ht3&Hp3&_&_); simpl in *.
  - split; [reflexivity|]. rewrite Ht3, Ht. reflexivity.
  - split; [congruence|right]. rewrite Ht3, Ht. reflexivity.
Qed.

(** *** The two caches together *)

Lemma cache_truthy_holds_sequence {A} (c : option (list A)) :
  cache_truthy c = true -> holds_sequence c = true.
Proof. destruct c as [[|]|]; simpl; congruence. Qed.

Lemma cache_dependency_cleared g :
  cached_playlists g = None -> cache_dependency g.
Proof. intros Hp. unfold cache_dependency. rewrite Hp. discriminate. Qed.

Lemma cache_dependency_called c r g :
  cache_dependency g -> cache_dependency (called c r g).
Proof. exact (fun H => H). Qed.

Lemma cache_dependency_get_all_tracks g :
  cache_dependency g -> cache_dependency (snd (get_all_tracks g)).
Proof.
  intros Hdep. pose proof (get_all_tracks_effect g) as (Hp&_&_&Ht).
  simpl in Hp, Ht. unfold cache_dependency in *. rewrite Hp.
  destruct (fst (get_all_tracks g)); rewrite Ht; [reflexivity|exact Hdep].
Qed.

Lemma cache_dependency_get_all_user_playlist_contents g :
  cache_dependency g ->
  cache_dependency (snd (get_all_user_playlist_contents g)).
Proof.
  intros Hdep. destruct (cache_truthy (cached_playlists g)) eqn:Hc.
  - destruct (cached_playlists g) as [[|p ps]|] eqn:Hg; try discriminate.
    rewrite (get_all_user_playlist_contents_hit g p ps Hg). exact Hdep.
  - pose proof (get_all_user_playlist_contents_effect g Hc) as He.
    simpl in He. unfold cache_dependency in *.
    destruct (fst (get_all_user_playlist_contents g)).
    + intros _. apply He.
    + destruct He as [Hp [Ht|Ht]]; rewrite Hp; [rewrite Ht; exact Hdep|].
      intros _. exact Ht.
Qed.

Lemma cache_dependency_login email password device_id g :
  cache_dependency g ->
  cache_dependency (snd (login email password device_id g)).
Proof.
  intros Hdep. rewrite login_run.
  destruct (mc_logout (mobile_client g)) as [[[]|e] r1]; simpl; [|exact Hdep].
  destruct (mc_login email password device_id r1) as [[result|e] r2]; simpl.
  - destruct (negb _); apply cache_dependency_cleared; reflexivity.
  - apply cache_dependency_cleared. reflexivity.
Qed.

Lemma cache_dependency_add_to_my_library track g :
  cache_dependency g -> cache_dependency (snd (add_to_my_library track g)).
Proof.
  intros Hdep. rewrite add_to_my_library_run.
  destruct (TrackModel.id (deref track g)) as [tid|e]; [|exact Hdep].
  destruct (mc_add_store_tracks tid (mobile_client g)) as [[result|e] r];
    simpl; [|exact Hdep].
  destruct (reply_truthy result);
    [apply cache_dependency_cleared; reflexivity|exact Hdep].
Qed.

Lemma cache_dependency_remove_from_my_library track g :
  cache_dependency g ->
  cache_dependency (snd (remove_from_my_library track g)).
Proof.
  intros Hdep. rewrite remove_from_my_library_run.
  destruct (TrackModel.id (deref track g)) as [tid|e]; [|exact Hdep].
  destruct (mc_delete_songs tid (mobile_client g)) as [[result|e] r];
    simpl; [|exact Hdep].
  destruct (reply_truthy result);
    [apply cache_dependency_cleared; reflexivity|exact Hdep].
Qed.

(** C10, amended: when the operations run one at a time, each of the six
    public operations keeps the dependency between the caches, read as
    "the playlist cache holds a sequence (not [None]) only if the track
    cache holds one": if it holds before the operation, it holds after it,
    whether the operation returns or raises (a playlist fetch that fails
    partway included). *)
Theorem cache_dependency_preserved g :
  cache_dependency g ->
  cache_dependency (snd (get_all_tracks g)) /\
  cache_dependency (snd (get_all_user_playlist_contents g)) /\
  cache_dependency (snd (invalidate_caches g)) /\
  (forall email password device_id,
     cache_dependency (snd (login email password device_id g))) /\
  (forall track, cache_dependency (snd (add_to_my_library track g))) /\
  (forall track, cache_dependency (snd (remove_from_my_library track g))).
Proof.
  intros Hdep. repeat split.
  - apply cache_dependency_get_all_tracks, Hdep.
  - apply cache_dependency_get_all_user_playlist_contents, Hdep.
  - apply cache_dependency_cleared. reflexivity.
  - intros. apply cache_dependency_login, Hdep.
  - intros. apply cache_dependency_add_to_my_library, Hdep.
  - intros. apply cache_dependency_remove_from_my_library, Hdep.
Qed.

(** C9, amended: [invalidate_caches], a [login] whose remote logout has
    returned, and an add or a remove that the remote service reports as
    done (a truthy result) leave both caches cleared ([None]).  A
    [get_all_user_playlist_contents] that finds no playlists cached ([None]
    or an empty sequence) and returns leaves a sequence in both caches: the
    playlists it returns, and the library as [get_all_tracks] returned it
    (either may be empty); one that finds a non-empty playlist cache
    returns it and changes nothing, the track cache included, whatever it
    holds.  [get_all_tracks] leaves the playlist cache as it was and, when
    it returns, its result in the track cache. *)
Theorem caches_after_operations g :
  (cached_tracks (snd (invalidate_caches g)) = None /\
   cached_playlists (snd (invalidate_caches g)) = None) /\
  (forall email password device_id r1,
     mc_logout (mobile_client g) = (Return tt, r1) ->
     cached_tracks (snd (login email password device_id g)) = None /\
     cached_playlists (snd (login email password device_id g)) = None) /\
  (forall track result g',
     add_to_my_library track g = (Return result, g') ->
     reply_truthy result = true ->
     cached_tracks g' = None /\ cached_playlists g' = None) /\
  (forall track result g',
     remove_from_my_library track g = (Return result, g') ->
     reply_truthy result = true ->
     cached_tracks g' = None /\ cached_playlists g' = None) /\
  (forall ps g',
     cache_truthy (cached_playlists g) = false ->
     get_all_user_playlist_contents g = (Return ps, g') ->
     cached_playlists g' = Some ps /\
     exists ts, fst (get_all_tracks g) = Return ts /\
                cached_tracks g' = Some ts) /\
  (forall p ps,
     cached_playlists g = Some (p :: ps) ->
     get_all_user_playlist_contents g = (Return (p :: ps), g)) /\
  (forall ts g',
     get_all_tracks g = (Return ts, g') ->
     cached_tracks g' = Some ts /\ cached_playlists g' = cached_playlists g).
Proof.
  split; [split; reflexivity|].
  split.
  { intros email password device_id r1 Hout. rewrite login_run, Hout.
    destruct (mc_login email password device_id r1) as [[result|e] r2]; simpl.
    - destruct (negb _); split; reflexivity.
    - split; reflexivity. }
  split.
  { intros track result g'. rewrite add_to_my_library_run.
    destruct (TrackModel.id (deref track g)) as [tid|e]; [|discriminate].
    destruct (mc_add_store_tracks tid (mobile_client g)) as [[res|e] r];
      simpl; [|discriminate].
    intros [= -> <-] Ht. rewrite Ht. split; reflexivity. }
  split.
  { intros track result g'. rewrite remove_from_my_library_run.
    destruct (TrackModel.id (deref track g)) as [tid|e]; [|discriminate].
    destruct (mc_delete_songs tid (mobile_client g)) as [[res|e] r];
      simpl; [|discriminate].
    intros [= -> <-] Ht. rewrite Ht. split; reflexivity. }
  split.
  { intros ps g' Hc Hrun.
    rewrite (get_all_user_playlist_contents_miss g Hc) in Hrun.
    pose proof (get_all_tracks_effect g) as (_&_&_&Ht). simpl in Ht.
    destruct (get_all_tracks g) as [[ts|e] g1]; [|discriminate].
    simpl in Ht.
    destruct (mc_get_all_user_playlist_contents (mobile_client g1))
      as [[data|e] r]; [|discriminate].
    cbv zeta in Hrun.
    pose proof (heap_only_Playlist_from_data_many data
      (called CallGetAllUserPlaylistContents r g1)) as Hs.
    destruct (Playlist_from_data_many data _) as [[ps'|e] g3];
      [|discriminate].
    injection Hrun as <- <-. simpl in Hs. destruct Hs as (_&Ht3&_).
    split; [reflexivity|]. exists ts. split; [reflexivity|].
    simpl. rewrite Ht3. exact Ht. }
  split; [apply get_all_user_playlist_contents_hit|].
  intros ts g' Hrun.
  pose proof (get_all_tracks_effect g) as (Hp&_&_&Ht).
  rewrite Hrun in Hp, Ht. simpl in Hp, Ht. split; assumption.
Qed.


(** *** Playlist reconciliation *)

Lemma deref_extends g g' l :
  heap g ⊆ heap g' -> l ∈ dom (heap g) -> deref l g' = deref l g.
Proof.
  intros Hsub Hin. apply elem_of_dom in Hin as [t Ht]. unfold deref.
  rewrite (lookup_total_correct _ _ _ Ht).
  apply lookup_total_correct. eapply lookup_weaken; eassumption.
Qed.

Lemma item_value_extends g g' cache (item : playlist_item) :
  heap g ⊆ heap g' -> live g cache ->
  item_value g' cache item = item_value g cache item.
Proof.
  intros Hsub Hlive. unfold item_value.
  destruct (item_track item); [reflexivity|].
  destruct (item_fields item !! "trackId") as [tid|]; [|reflexivity].
  rewrite (find_track_ext g g').
  2:{ intros l Hin. apply deref_extends; [exact Hsub|apply Hlive, Hin]. }
  destruct (find_track g tid cache) as [c|] eqn:Hf; [|reflexivity].
  apply find_track_Some in Hf as [Hin _].
  rewrite (deref_extends g g' c Hsub (Hlive c Hin)). reflexivity.
Qed.

Lemma allocated_extends (t : Track) g : heap g ⊆ heap (allocated t g).
Proof.
  unfold allocated. simpl. apply insert_subseteq, not_elem_of_dom, is_fresh.
Qed.

Lemma live_extends g g' cache :
  heap g ⊆ heap g' -> live g cache -> live g' cache.
Proof.
  intros Hsub Hlive l Hin. apply (subseteq_dom _ _ Hsub). apply Hlive, Hin.
Qed.

(** One turn of the loop on an entry that stands for a track: one new
    object, holding that track. *)
Lemma playlist_item_to_track_resolved g cache (item : playlist_item) t :
  cached_tracks g = Some cache ->
  item_value g cache item = Some t ->
  playlist_item_to_track item g
  = (Return (fresh (dom (heap g))), allocated t g).
Proof.
  intros Hc Hv. unfold item_value in Hv. unfold playlist_item_to_track.
  destruct (item_track item) as [data|].
  - unfold Track_from_data, bind, lift.
    destruct (parse_track data) as [t'|e]; [|discriminate].
    injection Hv as <-. reflexivity.
  - destruct (item_fields item !! "trackId") as [tid|] eqn:Hk; [|discriminate].
    destruct (find_track g tid cache) as [c|] eqn:Hf; [|discriminate].
    injection Hv as <-.
    unfold bind at 1. unfold lift at 1, getitem at 1. rewrite Hk.
    unfold bind at 1. rewrite (get_track_by_id_cached g tid cache Hc), Hf.
    unfold bind, Track_copy, get_state, new_track, lift, getitem.
    rewrite Hk. unfold set_track_id, modify, ret, allocated, deref. simpl.
    rewrite lookup_total_insert_eq, insert_insert_eq. reflexivity.
Qed.

(** One turn of the loop on a bare entry whose id no cached track has:
    [copy] is called on [None]. *)
Lemma playlist_item_to_track_unknown g cache (item : playlist_item) tid :
  cached_tracks g = Some cache ->
  item_track item = None ->
  item_fields item !! "trackId" = Some tid ->
  find_track g tid cache = None ->
  playlist_item_to_track item g = (Raise (AttributeError no_copy_msg), g).
Proof.
  intros Hc Ht Hk Hf. unfold playlist_item_to_track. rewrite Ht.
  unfold bind at 1. unfold lift at 1, getitem at 1. rewrite Hk.
  unfold bind at 1. rewrite (get_track_by_id_cached g tid cache Hc), Hf.
  reflexivity.
Qed.

Lemma playlist_item_to_track_unresolved g cache (item : playlist_item) :
  cached_tracks g = Some cache ->
  item_value g cache item = None ->
  exists e, playlist_item_to_track item g = (Raise e, g).
Proof.
  intros Hc Hv. unfold item_value in Hv.
  destruct (item_track item) as [data|] eqn:Ht.
  - unfold playlist_item_to_track. rewrite Ht.
    unfold Track_from_data, bind, lift.
    destruct (parse_track data) as [t'|e]; [discriminate|].
    exists e. reflexivity.
  - destruct (item_fields item !! "trackId") as [tid|] eqn:Hk.
    + destruct (find_track g tid cache) as [c|] eqn:Hf; [discriminate|].
      eexists. eapply playlist_item_to_track_unknown; eassumption.
    + exists (KeyError "trackId"). unfold playlist_item_to_track.
      rewrite Ht. unfold bind, lift, getitem. rewrite Hk. reflexivity.
Qed.


(** The loop over entries that all stand for a track: it returns, with one
    new object per entry, in the order of the entries. *)
Lemma playlist_items_loop_resolved cache (items : list playlist_item) :
  forall g results,
  cached_tracks g = Some cache -> live g cache ->
  Forall (fun item => resolvable g cache item = true) items ->
  exists news g',
    playlist_items_loop items results g = (Return (results ++ news), g') /\
    length news = length items /\
    same_client g g' /\
    heap g ⊆ heap g' /\
    forall i item, items !! i = Some item ->
      exists l t, news !! i = Some l /\ (l ∉ dom (heap g)) /\
                  item_value g cache item = Some t /\
                  heap g' !! l = Some t.
Proof.
  induction items as [|item items IH]; intros g results Hc Hlive Hall.
  - exists [], g. simpl. rewrite app_nil_r.
    repeat split; try reflexivity. intros i item Hi. discriminate.
  - apply Forall_cons in Hall as [Hres Hall].
    unfold resolvable in Hres.
    destruct (item_value g cache item) as [t|] eqn:Hv; [|discriminate].
    pose proof (playlist_item_to_track_resolved g cache item t Hc Hv) as Hrun.
    pose proof (allocated_extends t g) as Hsub.
    set (l := fresh (dom (heap g))) in *. set (g1 := allocated t g) in *.
    destruct (IH g1 (results ++ [l])) as (news & g' & Hloop & Hlen & Hsame
                                           & Hsub' & Hidx).
    { exact Hc. }
    { eapply live_extends; eassumption. }
    { eapply Forall_impl; [exact Hall|]. intros x Hx. unfold resolvable in *.
      rewrite (item_value_extends g g1 cache x Hsub Hlive). exact Hx. }
    exists (l :: news), g'. split; [|split; [|split; [|split]]].
    + simpl. unfold bind. rewrite Hrun. rewrite Hloop.
      rewrite <- app_assoc. reflexivity.
    + simpl. rewrite Hlen. reflexivity.
    + eapply same_client_trans; [|exact Hsame]. apply same_client_set_heap.
    + etrans; eassumption.
    + intros [|i] x Hi; simpl in Hi.
      * injection Hi as <-. exists l, t. split; [reflexivity|].
        split; [apply is_fresh|]. split; [exact Hv|].
        eapply lookup_weaken; [|exact Hsub'].
        unfold g1, allocated. simpl. apply lookup_insert_eq.
      * destruct (Hidx i x Hi) as (l' & t' & Hn & Hfresh & Hv' & Hl').
        exists l', t'. split; [exact Hn|]. split.
        { intros Hin. apply Hfresh. apply (subseteq_dom _ _ Hsub). exact Hin. }
        split; [|exact Hl'].
        rewrite <- (item_value_extends g g1 cache x Hsub Hlive). exact Hv'.
Qed.

(** The loop returns only when every entry stands for a track. *)
Lemma playlist_items_loop_returns cache (items : list playlist_item) :
  forall g results out g',
  cached_tracks g = Some cache -> live g cache ->
  playlist_items_loop items results g = (Return out, g') ->
  Forall (fun item => resolvable g cache item = true) items.
Proof.
  induction items as [|item items IH]; intros g results out g' Hc Hlive Hrun.
  - constructor.
  - simpl in Hrun. unfold bind in Hrun.
    destruct (item_value g cache item) as [t|] eqn:Hv.
    + rewrite (playlist_item_to_track_resolved g cache item t Hc Hv) in Hrun.
      pose proof (allocated_extends t g) as Hsub.
      constructor; [unfold resolvable; rewrite Hv; reflexivity|].
      eapply Forall_impl.
      * eapply (IH (allocated t g)); [exact Hc| |exact Hrun].
        eapply live_extends; eassumption.
      * intros x Hx. unfold resolvable in *.
        rewrite <- (item_value_extends g _ cache x Hsub Hlive). exact Hx.
    + destruct (playlist_item_to_track_unresolved g cache item Hc Hv)
        as [e He].
      rewrite He in Hrun. discriminate.
Qed.


(** C1: with a sequence in the library cache (its references being
    objects of the store), [playlist_items_to_tracks] returns exactly when
    every entry is an embedded track that parses or a bare id that some
    cached track carries; and whenever it returns, the result has one
    track per entry, in the order of the entries: the parsed track for an
    embedded entry and, for a bare entry, a new object, none of the cached
    ones, made from the first cached track that carries the entry's id as
    its library id, store id or track id: its track id is the entry's, and
    its library id, store id, title, artist and duration are those of that
    cached track.  The cached objects are as before, and stay so however
    the new object is changed afterwards. *)
Theorem playlist_items_to_tracks_reconciles g cache
    (items : list playlist_item) :
  cached_tracks g = Some cache -> live g cache ->
  (Forall (convertible g cache) items <->
   returned (fst (playlist_items_to_tracks items g)) = true) /\
  forall results g',
    playlist_items_to_tracks items g = (Return results, g') ->
    length results = length items /\
    cached_tracks g' = Some cache /\
    (forall c, c ∈ cache -> deref c g' = deref c g) /\
    (forall i item data,
       items !! i = Some item -> item_track item = Some data ->
       exists l, results !! i = Some l /\
                 (l ∉ cache) /\
                 parse_track data = Return (deref l g')) /\
    (forall i item tid,
       items !! i = Some item -> item_track item = None ->
       item_fields item !! "trackId" = Some tid ->
       exists l cached before after,
         results !! i = Some l /\
         cache = before ++ cached :: after /\
         carries tid (deref cached g) /\
         Forall (fun c => ~ carries tid (deref c g)) before /\
         (l ∉ cache) /\
         track_id (deref l g') = tid /\
         id_ (deref l g') = id_ (deref cached g) /\
         store_id (deref l g') = store_id (deref cached g) /\
         title (deref l g') = title (deref cached g) /\
         artist (deref l g') = artist (deref cached g) /\
         duration (deref l g') = duration (deref cached g) /\
         forall t c, c ∈ cache -> deref c (mutate l t g') = deref c g).
Proof.
  intros Hc Hlive. unfold playlist_items_to_tracks. split.
  { split.
    - intros Hall. apply Forall_resolvable_convertible in Hall.
      destruct (playlist_items_loop_resolved cache items g [] Hc Hlive Hall)
        as (news & g' & Hrun & _).
      rewrite Hrun. reflexivity.
    - intros Hret. apply Forall_resolvable_convertible.
      destruct (playlist_items_loop items [] g) as [[out|e] g'] eqn:Hrun;
        [|discriminate].
      eapply playlist_items_loop_returns; eassumption. }
  intros results g' Hrun.
  pose proof (playlist_items_loop_returns cache items g [] results g'
                Hc Hlive Hrun) as Hall.
  destruct (playlist_items_loop_resolved cache items g [] Hc Hlive Hall)
    as (news & g2 & Hrun2 & Hlen & Hsame & Hsub & Hidx).
  rewrite Hrun in Hrun2. simpl in Hrun2. injection Hrun2 as -> ->.
  assert (Hkeep : forall c, c ∈ cache -> deref c g2 = deref c g).
  { intros c Hin. apply deref_extends; [exact Hsub|apply Hlive, Hin]. }
  split; [exact Hlen|]. split.
  { destruct Hsame as (_&Ht&_). rewrite Ht. exact Hc. }
  split; [exact Hkeep|]. split.
  - intros i item data Hi Ht.
    destruct (Hidx i item Hi) as (l & t & Hn & Hfresh & Hv & Hl).
    exists l. split; [exact Hn|]. split.
    { intros Hin. apply Hfresh, Hlive, Hin. }
    unfold item_value in Hv. rewrite Ht in Hv.
    destruct (parse_track data) as [t'|e]; [|discriminate].
    injection Hv as ->. unfold deref.
    rewrite (lookup_total_correct _ _ _ Hl). reflexivity.
  - intros i item tid Hi Ht Hk.
    destruct (Hidx i item Hi) as (l & t & Hn & Hfresh & Hv & Hl).
    unfold item_value in Hv. rewrite Ht, Hk in Hv.
    destruct (find_track g tid cache) as [cached|] eqn:Hf; [|discriminate].
    injection Hv as <-.
    destruct (find_track_split g tid cache cached Hf)
      as (before & after & Hsplit & Hcar & Hfirst).
    exists l, cached, before, after. split; [exact Hn|].
    split; [exact Hsplit|]. split; [exact Hcar|]. split; [exact Hfirst|].
    assert (Hnew : l ∉ cache).
    { intros Hin. apply Hfresh, Hlive, Hin. }
    split; [exact Hnew|].
    assert (Hd : deref l g2 = patched (deref cached g) tid).
    { unfold deref at 1. apply lookup_total_correct, Hl. }
    rewrite Hd. simpl. do 6 (split; [reflexivity|]).
    intros t' c Hin. rewrite <- (Hkeep c Hin).
    unfold mutate, deref. simpl. apply lookup_total_insert_ne.
    intros ->. contradiction.
Qed.


(** The references [get_all_tracks] caches are objects of the store. *)
Lemma for_each_Track_from_data_live (data : list (gmap string pyval)) :
  forall g ts g',
  Track_from_data_many data g = (Return ts, g') ->
  heap g ⊆ heap g' /\ forall l, l ∈ ts -> l ∈ dom (heap g').
Proof.
  unfold Track_from_data_many.
  induction data as [|d data IH]; intros g ts g' Hrun; simpl in Hrun.
  - injection Hrun as <- <-. split; [reflexivity|]. intros l Hin.
    inversion Hin.
  - unfold bind at 1 in Hrun. unfold Track_from_data, bind at 1, lift in Hrun.
    destruct (parse_track d) as [t|e]; [|discriminate].
    change (new_track t g) with
      (Return (fresh (dom (heap g))), allocated t g) in Hrun.
    unfold bind at 1 in Hrun.
    destruct (for_each _ data (allocated t g)) as [[ts'|e] g2] eqn:Hrest;
      [|discriminate].
    injection Hrun as <- <-.
    pose proof (IH _ _ _ Hrest) as [Hsub Hin'].
    pose proof (allocated_extends t g) as Hsub0.
    split; [etrans; eassumption|].
    intros l Hin. apply elem_of_cons in Hin as [->|Hin]; [|apply Hin', Hin].
    apply (subseteq_dom _ _ Hsub). unfold allocated. simpl.
    rewrite dom_insert_L. apply elem_of_union_l, elem_of_singleton.
    reflexivity.
Qed.

(** So the hypothesis of the reconciliation holds of the cache as
    [get_all_tracks] leaves it. *)
Lemma get_all_tracks_live g ts g' :
  (forall cache, cached_tracks g = Some cache -> live g cache) ->
  get_all_tracks g = (Return ts, g') ->
  cached_tracks g' = Some ts /\ live g' ts.
Proof.
  intros Hlive Hrun. destruct (cache_truthy (cached_tracks g)) eqn:Hc.
  - destruct (cached_tracks g) as [[|t ts0]|] eqn:Hg; try discriminate.
    rewrite (get_all_tracks_hit g t ts0 Hg) in Hrun.
    injection Hrun as <- <-. split; [exact Hg|apply Hlive; reflexivity].
  - pose proof (get_all_tracks_miss g Hc) as Hm. simpl in Hm.
    destruct (mc_get_all_songs (mobile_client g)) as [[data|e] r];
      rewrite Hm in Hrun; [|discriminate].
    destruct (Track_from_data_many data _) as [[ts'|e] g3] eqn:Hparse;
      [|discriminate].
    injection Hrun as <- <-. split; [reflexivity|].
    destruct (for_each_Track_from_data_live _ _ _ _ Hparse) as [_ Hin].
    exact Hin.
Qed.


End ClientFacts.

(** ** The properties on the scripted session *)

Module Examples.
Import Mock.

Lemma loaded_cache : cached_tracks loaded = Some [1; 2; 3]%positive.
Proof. vm_compute. reflexivity. Qed.

Lemma loaded_live : live loaded [1; 2; 3]%positive.
Proof.
  intros l Hin. apply elem_of_dom.
  repeat (apply elem_of_cons in Hin as [->|Hin]; [vm_compute; eauto|]).
  inversion Hin.
Qed.



(** C6, as stated, fails: with the cache cleared the lookup raises. *)
Lemma get_track_by_id_raises_when_cleared :
  cached_tracks (fresh_client session0) = None /\
  get_track_by_id (PStr "lib-1") (fresh_client session0)
  = (Raise (TypeError not_iterable_msg), fresh_client session0).
Proof. split; reflexivity. Qed.

(** C8, as stated, fails: the remote login opens the session and then
    raises; the state has flipped and no event says so. *)
Lemma login_flips_without_event :
  let g := fresh_client raising_session in
  let prev := mc_is_authenticated (snd (mc_logout (mobile_client g))) in
  let g' := snd (login (PStr "user") (PStr "secret") (PStr "device") g) in
  prev = false /\ mc_is_authenticated (mobile_client g') = true /\
  auth_events g' = [].
Proof. vm_compute. repeat split. Qed.

Lemma login_auth_state_changed_witness :
  let g := fresh_client session0 in
  mc_logout (mobile_client g) = (Return tt, session0) /\
  fired (snd (login (PStr "user") (PStr "secret") (PStr "device") g))
  = [CachesInvalidated; CachesInvalidated; AuthStateChanged true].
Proof.
  split; [reflexivity|].
  exact (login_auth_state_changed (PStr "user") (PStr "secret")
           (PStr "device") (fresh_client session0) session0 eq_refl).
Defined.

(** C9, as stated, fails: after [get_all_tracks] the track cache holds
    the three tracks of the library and the playlist cache is [None]. *)
Lemma get_all_tracks_fills_one_cache :
  let g' := snd (get_all_tracks (fresh_client session0)) in
  cached_tracks g' = Some [1; 2; 3]%positive /\
  cached_playlists g' = None.
Proof. vm_compute. split; reflexivity. Qed.

Lemma caches_after_operations_witness :
  add_to_my_library 1%positive loaded
  = (Return true, invalidated (called (CallAddStoreTracks (PStr "lib-1"))
                                      session0 loaded)) /\
  reply_truthy (Mobileclient:=client) true = true /\
  cached_tracks (invalidated (called (CallAddStoreTracks (PStr "lib-1"))
                                     session0 loaded)) = None /\
  cached_playlists (invalidated (called (CallAddStoreTracks (PStr "lib-1"))
                                        session0 loaded)) = None.
Proof.
  assert (Hrun : add_to_my_library 1%positive loaded
    = (Return true, invalidated (called (CallAddStoreTracks (PStr "lib-1"))
                                        session0 loaded))).
  { vm_compute. reflexivity. }
  split; [exact Hrun|]. split; [reflexivity|].
  destruct (caches_after_operations loaded) as (_ & _ & Hadd & _).
  exact (Hadd 1%positive true _ Hrun eq_refl).
Defined.

Lemma cache_dependency_preserved_witness :
  let g := snd (get_all_user_playlist_contents (fresh_client session0)) in
  holds_sequence (cached_playlists g) = true /\
  cache_dependency g /\
  cache_dependency (snd (get_all_tracks g)) /\
  cache_dependency (snd (add_to_my_library 1%positive g)).
Proof.
  cbv zeta.
  set (g := snd (get_all_user_playlist_contents (fresh_client session0))).
  assert (Hdep : cache_dependency g).
  { unfold cache_dependency. intros _. vm_compute. reflexivity. }
  split; [vm_compute; reflexivity|]. split; [exact Hdep|].
  destruct (cache_dependency_preserved g Hdep)
    as (Htracks & _ & _ & _ & Hadd & _).
  split; [exact Htracks|apply Hadd].
Defined.

(** C10, as stated, fails, in two ways.  Under the test the code applies
    to a cache ([if self.cached_tracks:]), one playlist fetch on an account
    with an empty library leaves the playlist cache populated beside a
    track cache that is not: it holds the empty sequence.  And an
    invalidation that runs between the two statements of the playlist
    fetch (an add from the menu, in its own thread and under no lock,
    after [get_all_tracks] has returned and before the playlists are
    assigned) leaves the playlist cache set and the track cache
    [None]. *)
Lemma cache_dependency_broken :
  (let g' := snd (get_all_user_playlist_contents (fresh_client new_account)) in
   cache_truthy (cached_playlists g') = true /\
   cached_tracks g' = Some [] /\
   cache_truthy (cached_tracks g') = false) /\
  (let g0 := fresh_client radio_account in
   let g1 := snd (get_all_tracks g0) in
   let g2 := snd (add_to_my_library 1%positive g1) in
   let g3 := snd (fetch_playlists g2) in
   get_all_user_playlist_contents g0
   = bind get_all_tracks (fun _ => fetch_playlists) g0 /\
   cache_dependency g0 /\
   returned (fst (get_all_tracks g0)) = true /\
   returned (fst (add_to_my_library 1%positive g1)) = true /\
   returned (fst (fetch_playlists g2)) = true /\
   cache_truthy (cached_playlists g3) = true /\
   cached_tracks g3 = None /\
   ~ cache_dependency g3).
Proof.
  split.
  - vm_compute. repeat split.
  - cbv zeta. split; [vm_compute; reflexivity|].
    split; [unfold cache_dependency; vm_compute; discriminate|].
    split; [vm_compute; reflexivity|]. split; [vm_compute; reflexivity|].
    split; [vm_compute; reflexivity|]. split; [vm_compute; reflexivity|].
    split; [vm_compute; reflexivity|].
    unfold cache_dependency. vm_compute. intros H.
    specialize (H eq_refl). discriminate H.
Qed.


Lemma playlist_items_to_tracks_reconciles_witness :
  cached_tracks loaded = Some [1; 2; 3]%positive /\
  live loaded [1; 2; 3]%positive /\
  exists results g' l,
    playlist_items_to_tracks [embedded_item; store_item] loaded
    = (Return results, g') /\
    results !! 1 = Some l /\
    (l ∉ [1; 2; 3]%positive) /\
    track_id (deref l g') = PStr "T2" /\
    id_ (deref l g') = PStr "lib-2" /\
    store_id (deref l g') = PStr "T2" /\
    title (deref l g') = PStr "Two" /\
    track_id (deref 2%positive g') = PNone.
Proof.
  split; [exact loaded_cache|]. split; [exact loaded_live|].
  destruct (playlist_items_to_tracks_reconciles loaded [1; 2; 3]%positive
              [embedded_item; store_item] loaded_cache loaded_live)
    as [Hreturns Hresult].
  assert (Hsecond : carries (PStr "T2") (deref 2%positive loaded)).
  { right. left. vm_compute. reflexivity. }
  destruct (playlist_items_to_tracks [embedded_item; store_item] loaded)
    as [[results|e] g'] eqn:Hrun.
  - exists results, g'.
    destruct (Hresult results g' eq_refl)
      as (_ & _ & Hkeep & _ & Hbare).
    destruct (Hbare 1 store_item (PStr "T2") eq_refl eq_refl eq_refl)
      as (l & cached & before & after & Hl & Hsplit & Hcar & Hfirst
          & Hnew & Htid & Hid & Hstore & Htitle & _).
    assert (Hcached : cached = 2%positive).
    { destruct before as [|b0 [|b1 [|b2 before]]];
        injection Hsplit as ? ?; subst.
      - exfalso. destruct Hcar as [H|[H|H]]; vm_compute in H; discriminate H.
      - congruence.
      - exfalso. apply Forall_cons in Hfirst as [_ Hfirst].
        apply Forall_cons in Hfirst as [Hno _]. exact (Hno Hsecond).
      - exfalso. destruct before; discriminate. }
    subst cached. exists l. split; [reflexivity|]. split; [exact Hl|].
    split; [exact Hnew|]. split; [exact Htid|].
    split; [rewrite Hid; vm_compute; reflexivity|].
    split; [rewrite Hstore; vm_compute; reflexivity|].
    split; [rewrite Htitle; vm_compute; reflexivity|].
    rewrite (Hkeep 2%positive).
    + vm_compute. reflexivity.
    + apply list_elem_of_further, list_elem_of_here.
  - exfalso.
    assert (Hall : Forall (convertible loaded [1; 2; 3]%positive)
                          [embedded_item; store_item]).
    { constructor; [vm_compute; reflexivity|].
      constructor; [|constructor].
      exists (PStr "T2"). split; [reflexivity|].
      exists 2%positive. split; [|exact Hsecond].
      apply list_elem_of_further, list_elem_of_here. }
    apply Hreturns in Hall. simpl in Hall. discriminate Hall.
Defined.

(** The scenario of the reconciliation: the second track of the playlist
    is a new object with the entry's track id and with the library id and
    store id of the cached [lib-2]. *)
Example reconciliation_scenario :
  let '(o, g') := playlist_items_to_tracks [embedded_item; bare_item] loaded in
  o = Return [4; 5]%positive /\
  deref 5%positive g'
  = mkTrack (PStr "lib-2") (PStr "lib-2") (PStr "T2") (PStr "Two") (PStr "B")
            2000 /\
  deref 2%positive g' = deref 2%positive loaded.
Proof. vm_compute. repeat split. Qed.

End Examples.

(** ** Identifiers of a track *)

Module TrackIdentity.
Import TrackModel.

Lemma id_defined (t : Track) :
  (returned (id t) = true <->
     truthy (id_ t) = true \/ truthy (track_id t) = true
     \/ truthy (store_id t) = true) /\
  returned (type t) = returned (id t) /\
  (forall v, id t = Return v -> truthy v = true /\ matches_id v t = true).
Proof.
  unfold id, type.
  destruct (truthy (id_ t)) eqn:Hi, (truthy (track_id t)) eqn:Ht,
           (truthy (store_id t)) eqn:Hs; simpl;
    (split; [intuition discriminate|]); (split; [reflexivity|]);
    intros v [= <-]; (split; [assumption|]);
    apply matches_id_true; auto.
Qed.

(** [Track.id] and [Track.type] are defined for the same tracks, those
    with some populated identifier; the id returned is populated and is
    one of the three identifier fields, so the track itself answers to
    it in [get_track_by_id]. *)
Theorem id_defined_with_type (t : Track) :
  (returned (id t) = true <->
     truthy (id_ t) = true \/ truthy (track_id t) = true
     \/ truthy (store_id t) = true) /\
  returned (type t) = returned (id t) /\
  (forall v, id t = Return v -> truthy v = true /\ matches_id v t = true).
Proof. apply id_defined. Qed.

(** The two properties order the identifiers differently: [id] prefers the
    library id, [type] and [__eq__] the track id. *)
Theorem id_prefers_library_id (t : Track) :
  truthy (id_ t) = true ->
  id t = Return (id_ t) /\
  (truthy (track_id t) = true -> type t = Return "playlist") /\
  (truthy (track_id t) = false -> truthy (store_id t) = true ->
   type t = Return "store") /\
  (truthy (track_id t) = false -> truthy (store_id t) = false ->
   type t = Return "uploaded").
Proof.
  intros Hi. unfold id, type. rewrite Hi.
  split; [reflexivity|].
  split; [intros ->; reflexivity|].
  split; [intros -> ->; reflexivity|intros -> ->; reflexivity].
Qed.

Lemma id_prefers_library_id_witness :
  truthy (id_ (mkTrack (PStr "L") (PStr "x") PNone PNone PNone 0)) = true /\
  id (mkTrack (PStr "L") (PStr "x") PNone PNone PNone 0) = Return (PStr "L") /\
  type (mkTrack (PStr "L") (PStr "x") PNone PNone PNone 0) = Return "playlist".
Proof.
  split; [reflexivity|].
  destruct (id_prefers_library_id
              (mkTrack (PStr "L") (PStr "x") PNone PNone PNone 0) eq_refl)
    as (Hid & Hty & _).
  split; [exact Hid|exact (Hty eq_refl)].
Defined.

(** [copy] keeps every field. *)
Lemma copy_fields_id (t : Track) : copy_fields t = t.
Proof. destruct t. reflexivity. Qed.

End TrackIdentity.

(** ** More on the client: parsing, the object store, lookups *)

Section ClientMore.
Context {remote : Type} `{!Mobileclient remote} `{!Builtins}.
Implicit Types (g : @GP remote) (l : loc) (ts : list loc).

(** *** Track.from_data *)

Lemma contains_true (d : gmap string pyval) (k : string) :
  contains d k = true <-> is_Some (d !! k).
Proof. unfold contains. apply bool_decide_eq_true. Qed.

Lemma contains_false (d : gmap string pyval) (k : string) :
  contains d k = false <-> d !! k = None.
Proof.
  unfold contains. rewrite bool_decide_eq_false, eq_None_not_Some. reflexivity.
Qed.

Lemma parse_track_cases (data : gmap string pyval) :
  (returned (parse_track data) = true <->
     (is_Some (data !! "id") \/ is_Some (data !! "storeId")
      \/ is_Some (data !! "trackId")) /\
     is_Some (data !! "title") /\ is_Some (data !! "artist") /\
     exists millis, data !! "durationMillis" = Some millis /\
                    returned (py_int millis) = true) /\
  (forall t, parse_track data = Return t ->
     id_ t = dict_get data "id" /\
     track_id t = dict_get data "trackId" /\
     store_id t = dict_get data "storeId" /\
     data !! "title" = Some (title t) /\
     data !! "artist" = Some (artist t) /\
     exists millis, data !! "durationMillis" = Some millis /\
                    py_int millis = Return (duration t)).
Proof.
  unfold parse_track.
  destruct (contains data "id") eqn:Hid, (contains data "storeId") eqn:Hst,
           (contains data "trackId") eqn:Htr; simpl;
    rewrite ?contains_true, ?contains_false in *.
  8:{ split; [|discriminate]. split; [discriminate|].
      intros [[H1|[H1|H1]] _]; rewrite ?Hid, ?Hst, ?Htr in H1;
        destruct H1; discriminate. }
  all: unfold getitem;
    destruct (data !! "title") as [ti|]; simpl;
    [|split; [split; [discriminate|intros (_&[? ?]&_); discriminate]
             |discriminate]];
    destruct (data !! "artist") as [ar|]; simpl;
    [|split; [split; [discriminate|intros (_&_&[? ?]&_); discriminate]
             |discriminate]];
    destruct (data !! "durationMillis") as [ms|]; simpl;
    [|split; [split; [discriminate|intros (_&_&_&?&?&_); discriminate]
             |discriminate]];
    destruct (py_int ms) as [z|e] eqn:Hz; simpl;
    [|split; [split; [discriminate
                     |intros (_&_&_&m&[= <-]&Hm); rewrite Hz in Hm;
                      discriminate]
             |discriminate]];
    (split;
     [split; [intros _; repeat split; eauto; exists ms; rewrite Hz; eauto|]
     |intros t [= <-]; simpl; repeat split; exists ms; eauto]);
    reflexivity.
Qed.

(** [Track.from_data] on one item returns exactly when the item has one of
    the keys [id], [storeId], [trackId], has [title] and [artist], and has
    a [durationMillis] that [int] accepts; the track then holds the values
    under these keys, [None] for an absent identifier key. *)
Theorem parse_track_returns (data : gmap string pyval) :
  (returned (parse_track data) = true <->
     (is_Some (data !! "id") \/ is_Some (data !! "storeId")
      \/ is_Some (data !! "trackId")) /\
     is_Some (data !! "title") /\ is_Some (data !! "artist") /\
     exists millis, data !! "durationMillis" = Some millis /\
                    returned (py_int millis) = true) /\
  (forall t, parse_track data = Return t ->
     id_ t = dict_get data "id" /\
     track_id t = dict_get data "trackId" /\
     store_id t = dict_get data "storeId" /\
     data !! "title" = Some (title t) /\
     data !! "artist" = Some (artist t) /\
     exists millis, data !! "durationMillis" = Some millis /\
                    py_int millis = Return (duration t)).
Proof. apply parse_track_cases. Qed.

(** The check of [from_data] is on the presence of the keys, not on their
    values: the track parsed has a usable [id] exactly when one of the
    identifier keys holds a populated value. *)
Theorem parse_track_id (data : gmap string pyval) (t : Track) :
  parse_track data = Return t ->
  (returned (TrackModel.id t) = true <->
     truthy (dict_get data "id") = true
     \/ truthy (dict_get data "trackId") = true
     \/ truthy (dict_get data "storeId") = true).
Proof.
  intros Hp.
  destruct (proj2 (parse_track_cases data) t Hp) as (Hi & Ht & Hs & _).
  rewrite <- Hi, <- Ht, <- Hs.
  apply (TrackIdentity.id_defined t).
Qed.

(** *** The object store: copy and from_data(many) *)

(** [Track.copy] makes one new object with the fields of the original; the
    objects already there, and the rest of the client, are untouched. *)
Theorem Track_copy_new_object l g :
  exists l' g',
    Track_copy l g = (Return l', g') /\
    (l' ∉ dom (heap g)) /\
    deref l' g' = deref l g /\
    (forall x, x ∈ dom (heap g) -> deref x g' = deref x g) /\
    same_client g g'.
Proof.
  exists (fresh (dom (heap g))), (allocated (deref l g) g).
  split.
  { unfold Track_copy, bind, get_state, new_track, allocated.
    rewrite TrackIdentity.copy_fields_id. reflexivity. }
  split; [apply is_fresh|]. split.
  { unfold deref at 1, allocated. simpl. apply lookup_total_insert_eq. }
  split; [|apply same_client_set_heap].
  intros x Hx. apply deref_extends; [apply allocated_extends|exact Hx].
Qed.

(** What [Track.from_data(data, many=True)] returns: one new object per
    item, in the order of the items, no two the same, each holding the
    parse of its item; the objects already there are untouched. *)
Lemma Track_from_data_many_spec (data : list (gmap string pyval)) :
  forall g ts g',
  Track_from_data_many data g = (Return ts, g') ->
  length ts = length data /\
  NoDup ts /\
  (forall l, l ∈ ts -> (l ∉ dom (heap g)) /\ l ∈ dom (heap g')) /\
  heap g ⊆ heap g' /\
  (forall i d, data !! i = Some d ->
     exists l t, ts !! i = Some l /\ parse_track d = Return t /\
                 heap g' !! l = Some t).
Proof.
  unfold Track_from_data_many.
  induction data as [|d data IH]; intros g ts g' Hrun; simpl in Hrun.
  - injection Hrun as <- <-. split; [reflexivity|].
    split; [constructor|]. split; [intros l Hin; inversion Hin|].
    split; [reflexivity|]. intros i d Hi. discriminate.
  - unfold bind at 1 in Hrun. unfold Track_from_data, bind at 1, lift in Hrun.
    destruct (parse_track d) as [t|e] eqn:Hp; [|discriminate].
    change (new_track t g) with
      (Return (fresh (dom (heap g))), allocated t g) in Hrun.
    unfold bind at 1 in Hrun.
    destruct (for_each _ data (allocated t g)) as [[ts'|e] g2] eqn:Hrest;
      [|discriminate].
    injection Hrun as <- <-.
    pose proof (IH _ _ _ Hrest) as (Hlen & Hnd & Hnew & Hsub & Hidx).
    pose proof (allocated_extends t g) as Hsub0.
    set (l0 := fresh (dom (heap g))) in *.
    assert (Hl0 : heap (allocated t g) !! l0 = Some t).
    { unfold allocated. simpl. apply lookup_insert_eq. }
    split; [simpl; rewrite Hlen; reflexivity|]. split.
    { constructor; [|exact Hnd]. intros Hin.
      apply (proj1 (Hnew l0 Hin)). apply elem_of_dom. eauto. }
    split.
    { intros l Hin. apply elem_of_cons in Hin as [->|Hin].
      - split; [apply is_fresh|]. apply elem_of_dom.
        exists t. eapply lookup_weaken; eassumption.
      - destruct (Hnew l Hin) as [Hn Hd]. split; [|exact Hd].
        intros Hg. apply Hn. apply (subseteq_dom _ _ Hsub0). exact Hg. }
    split; [etrans; eassumption|].
    intros [|i] x Hi; simpl in Hi.
    + injection Hi as <-. exists l0, t. split; [reflexivity|].
      split; [exact Hp|]. eapply lookup_weaken; eassumption.
    + apply Hidx, Hi.
Qed.

(** [Track.from_data(data, many=True)], when it returns, has made one new
    object per item, in the order of the items and no two the same, each
    holding the parse of its item; the objects that were there are
    untouched. *)
Theorem Track_from_data_many_objects (data : list (gmap string pyval))
    g ts g' :
  Track_from_data_many data g = (Return ts, g') ->
  length ts = length data /\
  NoDup ts /\
  (forall l, l ∈ ts -> (l ∉ dom (heap g)) /\ l ∈ dom (heap g')) /\
  (forall x, x ∈ dom (heap g) -> deref x g' = deref x g) /\
  (forall i d, data !! i = Some d ->
     exists l, ts !! i = Some l /\ parse_track d = Return (deref l g')).
Proof.
  intros Hrun.
  destruct (Track_from_data_many_spec data g ts g' Hrun)
    as (Hlen & Hnd & Hnew & Hsub & Hidx).
  split; [exact Hlen|]. split; [exact Hnd|]. split; [exact Hnew|].
  split; [intros x Hx; apply deref_extends; assumption|].
  intros i d Hi. destruct (Hidx i d Hi) as (l & t & Hl & Hp & Hh).
  exists l. split; [exact Hl|]. rewrite Hp. f_equal. symmetry.
  apply lookup_total_correct, Hh.
Qed.

(** It raises the error of the first item that does not parse. *)
Lemma Track_from_data_many_raises (pre post : list (gmap string pyval)) d e :
  forall g,
  Forall (fun x => returned (parse_track x) = true) pre ->
  parse_track d = Raise e ->
  fst (Track_from_data_many (pre ++ d :: post) g) = Raise e.
Proof.
  unfold Track_from_data_many.
  induction pre as [|x pre IH]; intros g Hall Hd; simpl.
  - unfold bind at 1. unfold Track_from_data, bind at 1, lift.
    rewrite Hd. reflexivity.
  - apply Forall_cons in Hall as [Hx Hall].
    unfold bind at 1. unfold Track_from_data, bind at 1, lift.
    destruct (parse_track x) as [t|e']; [|discriminate].
    change (new_track t g) with
      (Return (fresh (dom (heap g))), allocated t g).
    unfold bind at 1. specialize (IH (allocated t g) Hall Hd).
    destruct (for_each _ (pre ++ d :: post) (allocated t g)) as [[ts|e'] g2];
      simpl in IH; [discriminate|]. simpl. exact IH.
Qed.

Lemma Track_from_data_many_total (data : list (gmap string pyval)) :
  forall g,
  Forall (fun x => returned (parse_track x) = true) data ->
  returned (fst (Track_from_data_many data g)) = true.
Proof.
  unfold Track_from_data_many.
  induction data as [|x data IH]; intros g Hall; simpl; [reflexivity|].
  apply Forall_cons in Hall as [Hx Hall].
  unfold bind at 1. unfold Track_from_data, bind at 1, lift.
  destruct (parse_track x) as [t|e']; [|discriminate].
  change (new_track t g) with
    (Return (fresh (dom (heap g))), allocated t g).
  unfold bind at 1. specialize (IH (allocated t g) Hall).
  destruct (for_each _ data (allocated t g)) as [[ts|e'] g2];
    simpl in IH; [reflexivity|discriminate].
Qed.

(** *** get_all_tracks with an empty cache *)

(** With nothing usable in the cache and a library the service returns:
    when every item parses, [get_all_tracks] returns one track per item,
    in the order of the response, all distinct new objects, and caches that
    sequence; when an item does not parse, it raises the error of the first
    such item and leaves the cache as it was. *)
Theorem get_all_tracks_fetched g (data : list (gmap string pyval)) r :
  cache_truthy (cached_tracks g) = false ->
  mc_get_all_songs (mobile_client g) = (Return data, r) ->
  (Forall (fun d => returned (parse_track d) = true) data ->
   exists ts g',
     get_all_tracks g = (Return ts, g') /\
     cached_tracks g' = Some ts /\
     length ts = length data /\ NoDup ts /\
     forall i d, data !! i = Some d ->
       exists l, ts !! i = Some l /\ parse_track d = Return (deref l g')) /\
  (forall pre d post e,
     data = pre ++ d :: post ->
     Forall (fun x => returned (parse_track x) = true) pre ->
     parse_track d = Raise e ->
     fst (get_all_tracks g) = Raise e /\
     cached_tracks (snd (get_all_tracks g)) = cached_tracks g).
Proof.
  intros Hc Hremote.
  pose proof (get_all_tracks_miss g Hc) as Hm. simpl in Hm.
  rewrite Hremote in Hm.
  set (g2 := set_mobile_client r (log_call CallGetAllSongs g)) in *.
  split.
  - intros Hall.
    pose proof (Track_from_data_many_total data g2 Hall) as Htot.
    destruct (Track_from_data_many data g2) as [[ts|e] g3] eqn:Hrun;
      [|discriminate].
    destruct (Track_from_data_many_spec data g2 ts g3 Hrun)
      as (Hlen & Hnd & _ & _ & Hidx).
    exists ts, (set_cached_tracks (Some ts) g3).
    split; [exact Hm|]. split; [reflexivity|].
    split; [exact Hlen|]. split; [exact Hnd|].
    intros i d Hi. destruct (Hidx i d Hi) as (l & t & Hl & Hp & Hh).
    exists l. split; [exact Hl|]. rewrite Hp. f_equal. symmetry.
    unfold deref. simpl. apply lookup_total_correct, Hh.
  - intros pre d post e -> Hpre Hd.
    pose proof (Track_from_data_many_raises pre post d e g2 Hpre Hd) as Hr.
    pose proof (heap_only_Track_from_data_many (pre ++ d :: post) g2) as Hs.
    destruct (Track_from_data_many (pre ++ d :: post) g2) as [[ts|e'] g3];
      simpl in Hr; [discriminate|].
    injection Hr as ->. rewrite Hm. simpl.
    split; [reflexivity|]. destruct Hs as (_&Ht&_). exact Ht.
Qed.

(** *** get_track_by_id: the first match *)

(** The lookup returns the first cached track that has the identifier in
    one of its three fields. *)
Theorem find_track_first g (v : pyval) ts l :
  find_track g v ts = Some l <->
  exists pre post,
    ts = pre ++ l :: post /\
    matches_id v (deref l g) = true /\
    Forall (fun x => matches_id v (deref x g) = false) pre.
Proof.
  split.
  - revert l. induction ts as [|x ts IH]; intros l; simpl; [discriminate|].
    destruct (matches_id v (deref x g)) eqn:Hx.
    + intros [= <-]. exists [], ts. repeat split; [exact Hx|constructor].
    + intros Hf. destruct (IH l Hf) as (pre & post & -> & Hl & Hpre).
      exists (x :: pre), post. repeat split; [exact Hl|].
      constructor; assumption.
  - intros (pre & post & -> & Hl & Hpre).
    induction Hpre as [|x pre Hx Hpre IH]; simpl.
    + rewrite Hl. reflexivity.
    + rewrite Hx. exact IH.
Qed.

(** A cached track that has a usable [id] is never reported missing when
    looked up by that id: the lookup returns a cached track carrying the
    id, and the track itself when no other cached track carries it. *)
Theorem get_track_by_id_finds_cached g ts l (v : pyval) :
  cached_tracks g = Some ts -> l ∈ ts ->
  TrackModel.id (deref l g) = Return v ->
  exists l',
    get_track_by_id v g = (Return (Some l'), g) /\
    l' ∈ ts /\ matches_id v (deref l' g) = true /\
    ((forall x, x ∈ ts -> matches_id v (deref x g) = true -> x = l) ->
     l' = l).
Proof.
  intros Hc Hin Hid.
  destruct (TrackIdentity.id_defined (deref l g)) as (_&_&Hv).
  destruct (Hv v Hid) as [_ Hm].
  rewrite (get_track_by_id_cached g v ts Hc).
  destruct (find_track g v ts) as [l'|] eqn:Hf.
  - destruct (find_track_Some g v ts l' Hf) as [Hin' Hm'].
    exists l'. split; [reflexivity|]. split; [exact Hin'|].
    split; [exact Hm'|]. intros Huniq. apply Huniq; assumption.
  - rewrite (find_track_None g v ts Hf l Hin) in Hm. discriminate.
Qed.

(** *** get_cached_tracks_map *)

Lemma id_raises_no_identifier (t : Track) e :
  TrackModel.id t = Raise e -> e = Exception TrackModel.no_identifier_msg.
Proof.
  unfold TrackModel.id.
  repeat (destruct (truthy _); [discriminate|]).
  intros [= <-]. reflexivity.
Qed.

Lemma for_each_id_pairs g0 ts :
  forall g,
  for_each (remote:=remote)
    (fun l => bind (lift (TrackModel.id (deref l g0)))
                   (fun k => ret (k, l))) ts g
  = if forallb (fun l => returned (TrackModel.id (deref l g0))) ts
    then (Return (omap (id_pair g0) ts), g)
    else (Raise (Exception TrackModel.no_identifier_msg), g).
Proof.
  induction ts as [|l ts IH]; intros g; simpl; [reflexivity|].
  unfold bind at 1. unfold bind at 1, lift. unfold id_pair at 1.
  destruct (TrackModel.id (deref l g0)) as [k|e] eqn:Hid; simpl.
  - unfold bind at 1. rewrite IH.
    destruct (forallb _ ts); reflexivity.
  - rewrite (id_raises_no_identifier _ _ Hid). reflexivity.
Qed.

Lemma dict_of_lookup (pairs : list (pyval * loc)) :
  forall (d : gmap pyval loc) k,
  foldl (fun d p => <[fst p := snd p]> d) d pairs !! k
  = match last_value k pairs with
    | Some l => Some l
    | None => d !! k
    end.
Proof.
  induction pairs as [|[k0 l0] pairs IH]; intros d k; simpl; [reflexivity|].
  rewrite IH. destruct (last_value k pairs) as [l|]; [reflexivity|].
  destruct (decide (k = k0)) as [->|Hne].
  - apply lookup_insert_eq.
  - apply lookup_insert_ne. congruence.
Qed.

Lemma last_value_none g ts (k : pyval) :
  forallb (fun l => returned (TrackModel.id (deref l g))) ts = true ->
  last_value k (omap (id_pair g) ts) = None ->
  Forall (fun x => TrackModel.id (deref x g) <> Return k) ts.
Proof.
  induction ts as [|a ts IH]; intros Hall Hlast; [constructor|].
  simpl in Hall. apply andb_true_iff in Hall as [Ha Hall].
  destruct (TrackModel.id (deref a g)) as [ka|e] eqn:Hid; [|discriminate].
  assert (Hcons : omap (id_pair g) (a :: ts)
                  = (ka, a) :: omap (id_pair g) ts).
  { simpl. unfold id_pair at 1. rewrite Hid. reflexivity. }
  rewrite Hcons in Hlast. set (rest := omap (id_pair g) ts) in *.
  simpl in Hlast.
  destruct (last_value k rest) as [l|] eqn:Hrest; [discriminate|].
  destruct (decide (k = ka)) as [->|Hne]; [discriminate|].
  constructor; [rewrite Hid; congruence|apply IH; [exact Hall|reflexivity]].
Qed.

Lemma last_value_some g ts (k : pyval) l :
  forallb (fun l => returned (TrackModel.id (deref l g))) ts = true ->
  last_value k (omap (id_pair g) ts) = Some l ->
  TrackModel.id (deref l g) = Return k /\
  exists before after,
    ts = before ++ l :: after /\
    Forall (fun x => TrackModel.id (deref x g) <> Return k) after.
Proof.
  induction ts as [|a ts IH]; intros Hall Hlast; [discriminate|].
  simpl in Hall. apply andb_true_iff in Hall as [Ha Hall].
  destruct (TrackModel.id (deref a g)) as [ka|e] eqn:Hid; [|discriminate].
  assert (Hcons : omap (id_pair g) (a :: ts)
                  = (ka, a) :: omap (id_pair g) ts).
  { simpl. unfold id_pair at 1. rewrite Hid. reflexivity. }
  rewrite Hcons in Hlast.
  pose proof (last_value_none g ts k Hall) as Hnone.
  set (rest := omap (id_pair g) ts) in *.
  simpl in Hlast.
  destruct (last_value k rest) as [l'|] eqn:Hrest.
  - injection Hlast as ->.
    destruct (IH Hall eq_refl) as (Hl & before & after & -> & Hafter).
    split; [exact Hl|]. exists (a :: before), after. split; [reflexivity|].
    exact Hafter.
  - destruct (decide (k = ka)) as [->|Hne]; [|discriminate].
    injection Hlast as <-. split; [exact Hid|].
    exists [], ts. split; [reflexivity|].
    apply Hnone. reflexivity.
Qed.

(** [get_cached_tracks_map] needs a track sequence in the cache and a
    usable id on every cached track: it raises [TypeError] with the cache
    cleared and the "no identifier" exception when some cached track has
    none.  Otherwise it returns a dictionary in which the id of every
    cached track is a key, and in which a key leads to the last cached
    track that has it as its id: of two cached tracks with the same id
    only the later one is in the dictionary. *)
Theorem get_cached_tracks_map_entries g :
  match cached_tracks g with
  | None =>
      get_cached_tracks_map g = (Raise (TypeError not_iterable_msg), g)
  | Some ts =>
      if forallb (fun l => returned (TrackModel.id (deref l g))) ts
      then exists d,
             get_cached_tracks_map g = (Return d, g) /\
             (forall l, l ∈ ts ->
                exists k, TrackModel.id (deref l g) = Return k /\
                          is_Some (d !! k)) /\
             (forall k l, d !! k = Some l ->
                TrackModel.id (deref l g) = Return k /\
                exists before after,
                  ts = before ++ l :: after /\
                  Forall (fun x => TrackModel.id (deref x g) <> Return k)
                         after)
      else get_cached_tracks_map g
           = (Raise (Exception TrackModel.no_identifier_msg), g)
  end.
Proof.
  assert (Hrun : get_cached_tracks_map g =
    match cached_tracks g with
    | Some ts =>
        if forallb (fun l => returned (TrackModel.id (deref l g))) ts
        then (Return (dict_of (omap (id_pair g) ts)), g)
        else (Raise (Exception TrackModel.no_identifier_msg), g)
    | None => (Raise (TypeError not_iterable_msg), g)
    end).
  { unfold get_cached_tracks_map. unfold bind at 1. unfold get_state.
    destruct (cached_tracks g) as [ts|]; [|reflexivity].
    unfold bind at 1. rewrite (for_each_id_pairs g ts g).
    destruct (forallb _ ts); reflexivity. }
  rewrite Hrun. clear Hrun.
  destruct (cached_tracks g) as [ts|]; [|reflexivity].
  destruct (forallb _ ts) eqn:Hall; [|reflexivity].
  exists (dict_of (omap (id_pair g) ts)). split; [reflexivity|].
  unfold dict_of. split.
  - intros l Hin.
    assert (Hok : returned (TrackModel.id (deref l g)) = true).
    { rewrite forallb_forall in Hall. apply Hall.
      apply list_elem_of_In. exact Hin. }
    destruct (TrackModel.id (deref l g)) as [k|e] eqn:Hid; [|discriminate].
    exists k. split; [reflexivity|].
    rewrite dict_of_lookup, lookup_empty.
    destruct (last_value k (omap (id_pair g) ts)) as [l'|] eqn:Hlast;
      [eexists; reflexivity|].
    pose proof (last_value_none g ts k Hall Hlast) as Hnone.
    rewrite Forall_forall in Hnone. destruct (Hnone l Hin Hid).
  - intros k l. rewrite dict_of_lookup, lookup_empty.
    destruct (last_value k (omap (id_pair g) ts)) as [l'|] eqn:Hlast;
      [|discriminate].
    intros [= ->]. apply (last_value_some g ts k l Hall Hlast).
Qed.

(** *** add_to_my_library and remove_from_my_library *)

Lemma add_to_my_library_change track g :
  let o := fst (add_to_my_library track g) in
  let g' := snd (add_to_my_library track g) in
  heap g' = heap g /\
  (returned (TrackModel.id (deref track g)) = false -> g' = g) /\
  (if reported_done o
   then fired g' = fired g ++ [CachesInvalidated] /\
        cached_tracks g' = None /\ cached_playlists g' = None
   else fired g' = fired g /\
        cached_tracks g' = cached_tracks g /\
        cached_playlists g' = cached_playlists g).
Proof.
  simpl. rewrite add_to_my_library_run.
  destruct (TrackModel.id (deref track g)) as [tid|e]; simpl.
  2:{ repeat split. }
  destruct (mc_add_store_tracks tid (mobile_client g)) as [[result|e] r];
    simpl.
  - destruct (reply_truthy result) eqn:Hr; simpl; rewrite ?Hr;
      (split; [reflexivity|]); (split; [discriminate|]); repeat split.
  - split; [reflexivity|]. split; [discriminate|]. repeat split.
Qed.

Lemma remove_from_my_library_change track g :
  let o := fst (remove_from_my_library track g) in
  let g' := snd (remove_from_my_library track g) in
  heap g' = heap g /\
  (returned (TrackModel.id (deref track g)) = false -> g' = g) /\
  (if reported_done o
   then fired g' = fired g ++ [CachesInvalidated] /\
        cached_tracks g' = None /\ cached_playlists g' = None
   else fired g' = fired g /\
        cached_tracks g' = cached_tracks g /\
        cached_playlists g' = cached_playlists g).
Proof.
  simpl. rewrite remove_from_my_library_run.
  destruct (TrackModel.id (deref track g)) as [tid|e]; simpl.
  2:{ repeat split. }
  destruct (mc_delete_songs tid (mobile_client g)) as [[result|e] r];
    simpl.
  - destruct (reply_truthy result) eqn:Hr; simpl; rewrite ?Hr;
      (split; [reflexivity|]); (split; [discriminate|]); repeat split.
  - split; [reflexivity|]. split; [discriminate|]. repeat split.
Qed.

(** What a change of the library does besides the remote call: when the
    service reports it done, exactly one invalidation event and both
    caches cleared; otherwise (a falsy result, an exception, or a track
    without identifier, for which no call is made at all) the caches and
    the event log stay as they were.  The object store is never touched. *)
Theorem add_to_my_library_effect track g :
  let o := fst (add_to_my_library track g) in
  let g' := snd (add_to_my_library track g) in
  heap g' = heap g /\
  (returned (TrackModel.id (deref track g)) = false -> g' = g) /\
  (if reported_done o
   then fired g' = fired g ++ [CachesInvalidated] /\
        cached_tracks g' = None /\ cached_playlists g' = None
   else fired g' = fired g /\
        cached_tracks g' = cached_tracks g /\
        cached_playlists g' = cached_playlists g).
Proof. apply add_to_my_library_change. Qed.

(** The same for a removal: when the
    service reports it done, exactly one invalidation event and both
    caches cleared; otherwise (a falsy result, an exception, or a track
    without identifier, for which no call is made at all) the caches and
    the event log stay as they were.  The object store is never touched. *)
Theorem remove_from_my_library_effect track g :
  let o := fst (remove_from_my_library track g) in
  let g' := snd (remove_from_my_library track g) in
  heap g' = heap g /\
  (returned (TrackModel.id (deref track g)) = false -> g' = g) /\
  (if reported_done o
   then fired g' = fired g ++ [CachesInvalidated] /\
        cached_tracks g' = None /\ cached_playlists g' = None
   else fired g' = fired g /\
        cached_tracks g' = cached_tracks g /\
        cached_playlists g' = cached_playlists g).
Proof. apply remove_from_my_library_change. Qed.

(** *** login: the remote calls *)

(** [login] logs out first, whatever the session was, and authenticates
    on the session the logout left; it returns what the remote login
    returns.  When the logout raises, no login is attempted, and neither
    the caches nor the event log change. *)
Theorem login_calls email password device_id g :
  let '(o1, r1) := mc_logout (mobile_client g) in
  let g' := snd (login email password device_id g) in
  heap g' = heap g /\
  match o1 with
  | Return _ =>
      calls g' = calls g ++ [CallLogout; CallLogin] /\
      fst (login email password device_id g)
      = fst (mc_login email password device_id r1) /\
      mobile_client g' = snd (mc_login email password device_id r1)
  | Raise e =>
      calls g' = calls g ++ [CallLogout] /\
      fst (login email password device_id g) = Raise e /\
      mobile_client g' = r1 /\
      fired g' = fired g /\
      cached_tracks g' = cached_tracks g /\
      cached_playlists g' = cached_playlists g
  end.
Proof.
  rewrite login_run.
  destruct (mc_logout (mobile_client g)) as [[[]|e] r1]; simpl.
  2:{ repeat split. }
  destruct (mc_login email password device_id r1) as [[result|e] r2]; simpl.
  - destruct (negb _); simpl; rewrite <- app_assoc; repeat split.
  - rewrite <- app_assoc. repeat split.
Qed.


(** *** Playlists from the response *)

Lemma playlist_items_to_tracks_new g cache (items : list playlist_item)
    results g' :
  cached_tracks g = Some cache -> live g cache ->
  playlist_items_to_tracks items g = (Return results, g') ->
  length results = length items /\
  same_client g g' /\
  heap g ⊆ heap g' /\
  forall l, l ∈ results -> l ∉ dom (heap g).
Proof.
  intros Hc Hlive Hrun. unfold playlist_items_to_tracks in Hrun.
  pose proof (playlist_items_loop_returns cache items g [] results g'
                Hc Hlive Hrun) as Hall.
  destruct (playlist_items_loop_resolved cache items g [] Hc Hlive Hall)
    as (news & g2 & Hrun2 & Hlen & Hsame & Hsub & Hidx).
  rewrite Hrun in Hrun2. simpl in Hrun2. injection Hrun2 as -> ->.
  split; [exact Hlen|]. split; [exact Hsame|]. split; [exact Hsub|].
  intros l Hin. apply list_elem_of_lookup in Hin as [i Hi].
  destruct (lookup_lt_is_Some_2 items i) as [item Hitem].
  { rewrite <- Hlen. eapply lookup_lt_Some, Hi. }
  destruct (Hidx i item Hitem) as (l' & t & Hl' & Hfresh & _).
  rewrite Hi in Hl'. injection Hl' as <-. exact Hfresh.
Qed.

Lemma Playlist_from_data_spec g cache (data : playlist_data) p g' :
  cached_tracks g = Some cache -> live g cache ->
  Playlist_from_data data g = (Return p, g') ->
  pl_fields data !! "id" = Some (playlist_id p) /\
  pl_fields data !! "name" = Some (playlist_name p) /\
  (exists items, pl_tracks data = Some items /\
                 length (tracks p) = length items) /\
  same_client g g' /\
  heap g ⊆ heap g' /\
  forall l, l ∈ tracks p -> l ∉ dom (heap g).
Proof.
  intros Hc Hlive. unfold Playlist_from_data.
  unfold bind at 1. unfold lift at 1, getitem at 1.
  destruct (pl_fields data !! "id") as [pid|]; [|discriminate].
  unfold bind at 1. unfold lift at 1, getitem at 1.
  destruct (pl_fields data !! "name") as [pname|]; [|discriminate].
  unfold bind at 1.
  destruct (pl_tracks data) as [items|]; [|discriminate].
  unfold ret at 1. unfold bind at 1.
  destruct (playlist_items_to_tracks items g) as [[rs|e] g1] eqn:Hrun;
    [|discriminate].
  unfold ret. intros [= <- <-]. simpl.
  destruct (playlist_items_to_tracks_new g cache items rs g1 Hc Hlive Hrun)
    as (Hlen & Hsame & Hsub & Hnew).
  repeat split; try assumption; try apply Hsame.
  exists items. split; [reflexivity|exact Hlen].
Qed.

Lemma Playlist_from_data_many_spec cache (data : list playlist_data) :
  forall g ps g',
  cached_tracks g = Some cache -> live g cache ->
  Playlist_from_data_many data g = (Return ps, g') ->
  length ps = length data /\
  same_client g g' /\
  heap g ⊆ heap g' /\
  (forall i d, data !! i = Some d ->
     exists p items,
       ps !! i = Some p /\
       pl_fields d !! "id" = Some (playlist_id p) /\
       pl_fields d !! "name" = Some (playlist_name p) /\
       pl_tracks d = Some items /\
       length (tracks p) = length items) /\
  (forall p l, p ∈ ps -> l ∈ tracks p -> l ∉ dom (heap g)).
Proof.
  unfold Playlist_from_data_many.
  induction data as [|d data IH]; intros g ps g' Hc Hlive Hrun;
    simpl in Hrun.
  - injection Hrun as <- <-. split; [reflexivity|].
    split; [apply same_client_refl|]. split; [reflexivity|].
    split; [intros i d Hi; discriminate|]. intros p l Hp. inversion Hp.
  - unfold bind at 1 in Hrun.
    destruct (Playlist_from_data d g) as [[p|e] g1] eqn:Hd; [|discriminate].
    unfold bind at 1 in Hrun.
    destruct (for_each Playlist_from_data data g1) as [[ps'|e] g2] eqn:Hrest;
      [|discriminate].
    injection Hrun as <- <-.
    destruct (Playlist_from_data_spec g cache d p g1 Hc Hlive Hd)
      as (Hid & Hname & (items & Hitems & Hlen) & Hsame & Hsub & Hnew).
    assert (Hc1 : cached_tracks g1 = Some cache).
    { destruct Hsame as (_&Ht&_). rewrite Ht. exact Hc. }
    pose proof (live_extends g g1 cache Hsub Hlive) as Hlive1.
    destruct (IH g1 ps' g2 Hc1 Hlive1 Hrest)
      as (Hlen' & Hsame' & Hsub' & Hidx & Hnew').
    split; [simpl; rewrite Hlen'; reflexivity|].
    split; [eapply same_client_trans; eassumption|].
    split; [etrans; eassumption|]. split.
    + intros [|i] x Hi; simpl in Hi.
      * injection Hi as <-. exists p, items. repeat split; assumption.
      * apply Hidx, Hi.
    + intros q l Hq Hl. apply elem_of_cons in Hq as [->|Hq].
      * apply Hnew, Hl.
      * intros Hin. apply (Hnew' q l Hq Hl).
        apply (subseteq_dom _ _ Hsub). exact Hin.
Qed.

(** *** A playlist entry with an unknown id *)










(** A playlist fetch that returns from an empty playlist cache: the track
    cache holds a sequence, the playlists returned are cached, there is
    one per playlist of the response, in order, with the response's id and
    name and one track per entry; and no track of a playlist is one of the
    cached library objects. *)
Theorem get_all_user_playlist_contents_fetched g ps g' :
  (forall cache, cached_tracks g = Some cache -> live g cache) ->
  cache_truthy (cached_playlists g) = false ->
  get_all_user_playlist_contents g = (Return ps, g') ->
  exists cache g1 data,
    get_all_tracks g = (Return cache, g1) /\
    fst (mc_get_all_user_playlist_contents (mobile_client g1)) = Return data /\
    cached_tracks g' = Some cache /\
    cached_playlists g' = Some ps /\
    length ps = length data /\
    (forall i d, data !! i = Some d ->
       exists p items,
         ps !! i = Some p /\
         pl_fields d !! "id" = Some (playlist_id p) /\
         pl_fields d !! "name" = Some (playlist_name p) /\
         pl_tracks d = Some items /\
         length (tracks p) = length items) /\
    (forall p l, p ∈ ps -> l ∈ tracks p -> l ∉ cache).
Proof.
  intros Hwf Hc Hrun.
  rewrite (get_all_user_playlist_contents_miss g Hc) in Hrun.
  destruct (get_all_tracks g) as [[cache|e] g1] eqn:Htracks; [|discriminate].
  destruct (get_all_tracks_live g cache g1 Hwf Htracks) as [Hc1 Hlive1].
  destruct (mc_get_all_user_playlist_contents (mobile_client g1))
    as [[data|e] r] eqn:Hremote; [|discriminate].
  cbv zeta in Hrun.
  set (g2 := called CallGetAllUserPlaylistContents r g1) in *.
  destruct (Playlist_from_data_many data g2) as [[ps'|e] g3] eqn:Hparse;
    [|discriminate].
  injection Hrun as <- <-.
  destruct (Playlist_from_data_many_spec cache data g2 ps' g3 Hc1 Hlive1
              Hparse) as (Hlen & Hsame & Hsub & Hidx & Hnew).
  exists cache, g1, data. split; [reflexivity|].
  split; [rewrite Hremote; reflexivity|].
  split. { simpl. destruct Hsame as (_&Ht&_). rewrite Ht. exact Hc1. }
  split; [reflexivity|]. split; [exact Hlen|]. split; [exact Hidx|].
  intros p l Hp Hl Hin. apply (Hnew p l Hp Hl). apply Hlive1, Hin.
Qed.

(** *** The remote calls of the two fetches *)

Lemma get_all_tracks_calls g :
  calls (snd (get_all_tracks g))
  = calls g ++ (if cache_truthy (cached_tracks g) then []
                else [CallGetAllSongs]).
Proof.
  destruct (cache_truthy (cached_tracks g)) eqn:Hc.
  - destruct (cached_tracks g) as [[|t ts]|] eqn:Hg; try discriminate.
    rewrite (get_all_tracks_hit g t ts Hg). simpl. rewrite app_nil_r.
    reflexivity.
  - pose proof (get_all_tracks_miss g Hc) as Hm. simpl in Hm.
    destruct (mc_get_all_songs (mobile_client g)) as [[data|e] r].
    + pose proof (heap_only_Track_from_data_many data
        (set_mobile_client r (log_call CallGetAllSongs g))) as Hs.
      destruct (Track_from_data_many data _) as [[ts|e] g3];
        rewrite Hm; simpl in *; destruct Hs as (_&_&_&_&Hcalls);
        exact Hcalls.
    + rewrite Hm. reflexivity.
Qed.

(** [get_all_user_playlist_contents] issues at most one library fetch and
    then at most one playlist fetch, and nothing else: none at all when
    playlists are cached, no library fetch when tracks are cached, and the
    playlist fetch only once [get_all_tracks] has returned. *)
Theorem get_all_user_playlist_contents_calls g :
  let g' := snd (get_all_user_playlist_contents g) in
  calls g' =
    calls g ++
    (if cache_truthy (cached_playlists g) then []
     else (if cache_truthy (cached_tracks g) then [] else [CallGetAllSongs])
          ++ (if returned (fst (get_all_tracks g))
              then [CallGetAllUserPlaylistContents] else [])).
Proof.
  simpl. destruct (cache_truthy (cached_playlists g)) eqn:Hc.
  - destruct (cached_playlists g) as [[|p ps]|] eqn:Hg; try discriminate.
    rewrite (get_all_user_playlist_contents_hit g p ps Hg). simpl.
    rewrite app_nil_r. reflexivity.
  - rewrite (get_all_user_playlist_contents_miss g Hc).
    pose proof (get_all_tracks_calls g) as Hcalls.
    destruct (get_all_tracks g) as [[ts|e] g1]; simpl in *.
    2:{ rewrite Hcalls, app_nil_r. reflexivity. }
    destruct (mc_get_all_user_playlist_contents (mobile_client g1))
      as [[data|e] r]; simpl.
    2:{ rewrite Hcalls, app_assoc. reflexivity. }
    pose proof (heap_only_Playlist_from_data_many data
      (called CallGetAllUserPlaylistContents r g1)) as Hs.
    destruct (Playlist_from_data_many data _) as [[ps|e] g3]; simpl in *;
      destruct Hs as (_&_&_&_&Hc3); rewrite Hc3; unfold called; simpl;
      rewrite Hcalls, app_assoc; reflexivity.
Qed.


End ClientMore.

(** ** The locks *)

Module SyncFacts.
Import Sync.

Section Locks.
Context {St : Type} {lock : Type} `{Countable lock}.

Lemma plain_balanced {A} (m : St -> outcome A * St) :
  balanced (lock:=lock) (plain m).
Proof.
  intros held s o s' held'. unfold plain. destruct (m s).
  intros [= _ _ <-]. reflexivity.
Qed.

Lemma ret_balanced {A} (a : A) : balanced (St:=St) (lock:=lock) (ret a).
Proof. intros held s o s' held' [= _ _ <-]. reflexivity. Qed.

Lemma bind_balanced {A B} (m : run St lock A) (k : A -> run St lock B) :
  balanced m -> (forall a, balanced (k a)) -> balanced (bind m k).
Proof.
  intros Hm Hk held s o s' held'. unfold bind.
  destruct (m held s) as [[[[a|e] s1] held1]|] eqn:Hrun; [| |discriminate].
  - intros Hk'. rewrite <- (Hm _ _ _ _ _ Hrun). eapply Hk, Hk'.
  - intros [= _ _ <-]. eapply Hm, Hrun.
Qed.

Lemma released (l : lock) (held : gset lock) :
  l ∉ held -> (held ∪ {[l]}) ∖ {[l]} = held.
Proof.
  intros Hl. apply set_eq. intros x.
  rewrite elem_of_difference, elem_of_union, elem_of_singleton. split.
  - intros [[Hx|Hx] Hne]; [exact Hx|contradiction].
  - intros Hx. split; [left; exact Hx|]. intros ->. contradiction.
Qed.

Lemma holds_own (l : lock) (held : gset lock) : l ∈ held ∪ {[l]}.
Proof. apply elem_of_union_r, elem_of_singleton. reflexivity. Qed.

(** The wrapper around code that leaves the locks as it found them. *)
Lemma synchronized_run {A} (l : lock) (func : run St lock A) held s :
  balanced func ->
  synchronized l func held s =
    if decide (l ∈ held) then None
    else match func (held ∪ {[l]}) s with
         | Some (o, s', _) => Some (o, s', held)
         | None => None
         end.
Proof.
  intros Hbal. unfold synchronized, acquire.
  destruct (decide (l ∈ held)) as [|Hfree]; [reflexivity|].
  destruct (func (held ∪ {[l]}) s) as [[[o s'] held']|] eqn:Hrun;
    [|reflexivity].
  rewrite (Hbal _ _ _ _ _ Hrun). unfold release.
  rewrite decide_True by apply holds_own.
  rewrite (released l held Hfree). reflexivity.
Qed.

(** A call of a decorated function waits while its lock is held; else the
    function runs with the lock held, and when it ends, by a return or by
    an exception alike, its outcome and state are passed on and the lock is
    released: the locks held are those held before the call. *)
Theorem synchronized_releases {A} (l : lock) (func : run St lock A) held s :
  balanced func ->
  (l ∈ held -> synchronized l func held s = None) /\
  (l ∉ held ->
   forall o s' held',
     func (held ∪ {[l]}) s = Some (o, s', held') ->
     synchronized l func held s = Some (o, s', held)) /\
  balanced (synchronized l func).
Proof.
  intros Hbal. split; [|split].
  - intros Hin. rewrite (synchronized_run l func held s Hbal).
    rewrite decide_True by exact Hin. reflexivity.
  - intros Hfree o s' held' Hrun.
    rewrite (synchronized_run l func held s Hbal).
    rewrite decide_False by exact Hfree. rewrite Hrun. reflexivity.
  - intros h s0 o s' h'. rewrite (synchronized_run l func h s0 Hbal).
    destruct (decide (l ∈ h)); [discriminate|].
    destruct (func (h ∪ {[l]}) s0) as [[[o0 s1] h1]|]; [|discriminate].
    intros [= _ _ <-]. reflexivity.
Qed.

(** The lock is not reentrant: a decorated function that calls itself
    never ends. *)
Theorem synchronized_not_reentrant {A} (l : lock) (func : run St lock A)
    held s :
  synchronized l (synchronized l func) held s = None.
Proof.
  unfold synchronized at 1. unfold acquire at 1.
  destruct (decide (l ∈ held)); [reflexivity|].
  unfold synchronized, acquire.
  rewrite decide_True by apply holds_own. reflexivity.
Qed.

End Locks.

End SyncFacts.

Section LockedClientFacts.
Context {remote : Type} `{!Mobileclient remote} `{!Builtins}.
Implicit Types (g : @GP remote) (held : gset gp_lock).

Lemma get_all_user_playlist_contents_unfold g :
  get_all_user_playlist_contents g =
    match cached_playlists g with
    | Some (p :: ps) => (Return (p :: ps), g)
    | _ => bind get_all_tracks (fun _ => fetch_playlists) g
    end.
Proof.
  unfold get_all_user_playlist_contents. unfold bind at 1. unfold get_state.
  destruct (cached_playlists g) as [[|p ps]|]; reflexivity.
Qed.

Lemma get_all_tracks_synchronized_run g held :
  LockGetAllTracks ∉ held ->
  get_all_tracks_synchronized held g = Some (get_all_tracks g, held).
Proof.
  intros Hfree. unfold get_all_tracks_synchronized.
  rewrite SyncFacts.synchronized_run by apply SyncFacts.plain_balanced.
  rewrite decide_False by exact Hfree. unfold Sync.plain.
  destruct (get_all_tracks g). reflexivity.
Qed.

Lemma playlists_body_balanced :
  Sync.balanced (St:=@GP remote)
    (Sync.bind (Sync.plain get_state) (fun g0 =>
       match cached_playlists g0 with
       | Some (p :: ps) => Sync.ret (p :: ps)
       | _ => Sync.bind get_all_tracks_synchronized
                        (fun _ => Sync.plain fetch_playlists)
       end)).
Proof.
  apply SyncFacts.bind_balanced; [apply SyncFacts.plain_balanced|].
  intros g0.
  assert (Hmiss : Sync.balanced (St:=@GP remote)
    (Sync.bind get_all_tracks_synchronized
               (fun _ => Sync.plain fetch_playlists))).
  { apply SyncFacts.bind_balanced;
      [|intros _; apply SyncFacts.plain_balanced].
    intros h s0 o s' h'. unfold get_all_tracks_synchronized.
    rewrite SyncFacts.synchronized_run by apply SyncFacts.plain_balanced.
    destruct (decide (LockGetAllTracks ∈ h)); [discriminate|].
    unfold Sync.plain. destruct (get_all_tracks s0).
    intros [= _ _ <-]. reflexivity. }
  destruct (cached_playlists g0) as [[|p ps]|];
    [exact Hmiss|apply SyncFacts.ret_balanced|exact Hmiss].
Qed.

(** The locks do not get in the way of a client used by one thread: with
    its own lock and the lock of [get_all_tracks] free, the decorated
    [get_all_user_playlist_contents] ends, does exactly what the body does
    without locks, and leaves every lock as it was (the two locks differ,
    so the nested call does not wait); with its own lock held it waits. *)
Theorem get_all_user_playlist_contents_synchronized_runs g held :
  (LockGetAllUserPlaylistContents ∈ held ->
   get_all_user_playlist_contents_synchronized held g = None) /\
  (LockGetAllUserPlaylistContents ∉ held -> LockGetAllTracks ∉ held ->
   get_all_user_playlist_contents_synchronized held g
   = Some (get_all_user_playlist_contents g, held)).
Proof.
  unfold get_all_user_playlist_contents_synchronized. split.
  - intros Hin.
    rewrite SyncFacts.synchronized_run by exact playlists_body_balanced.
    rewrite decide_True by exact Hin. reflexivity.
  - intros Hown Htracks.
    rewrite SyncFacts.synchronized_run by exact playlists_body_balanced.
    rewrite decide_False by exact Hown.
    rewrite get_all_user_playlist_contents_unfold.
    set (held' := held ∪ {[LockGetAllUserPlaylistContents]}).
    assert (Hfree : LockGetAllTracks ∉ held').
    { unfold held'. rewrite elem_of_union, elem_of_singleton.
      intros [Hin|Heq]; [contradiction|discriminate]. }
    assert (Hmiss :
      Sync.bind get_all_tracks_synchronized
                (fun _ => Sync.plain fetch_playlists) held' g
      = Some (bind get_all_tracks (fun _ => fetch_playlists) g, held')).
    { unfold Sync.bind. rewrite (get_all_tracks_synchronized_run g held' Hfree).
      unfold bind. destruct (get_all_tracks g) as [[ts|e] g1]; [|reflexivity].
      unfold Sync.plain. destruct (fetch_playlists g1). reflexivity. }
    unfold Sync.bind at 1. unfold Sync.plain at 1, get_state.
    destruct (cached_playlists g) as [[|p ps]|].
    + rewrite Hmiss. destruct (bind _ _ g). reflexivity.
    + reflexivity.
    + rewrite Hmiss. destruct (bind _ _ g). reflexivity.
Qed.

(** [login] and [get_all_tracks] under their locks: each waits while its
    lock is held and otherwise does what the body does and leaves the
    locks as they were. *)
Lemma decorated_methods_run g held email password device_id :
  get_all_tracks_synchronized held g
  = (if decide (LockGetAllTracks ∈ held) then None
     else Some (get_all_tracks g, held)) /\
  login_synchronized email password device_id held g
  = (if decide (LockLogin ∈ held) then None
     else Some (login email password device_id g, held)).
Proof.
  unfold get_all_tracks_synchronized, login_synchronized.
  rewrite !SyncFacts.synchronized_run by apply SyncFacts.plain_balanced.
  unfold Sync.plain. split.
  - destruct (decide _); [reflexivity|].
    destruct (get_all_tracks g). reflexivity.
  - destruct (decide _); [reflexivity|].
    destruct (login email password device_id g). reflexivity.
Qed.

End LockedClientFacts.


(** ** Stations, search and stream URLs *)

Section RadioFacts.
Context {remote : Type} `{!Mobileclient remote} `{!Builtins}.
Context `{!Radio remote} `{!SearchClient remote}.
Implicit Types (g : @GP remote) (l : loc).

Lemma same_client_kept g g' :
  same_client g g' -> caches_and_events_kept g g'.
Proof. intros (_&?&?&?&_). repeat split; assumption. Qed.

Lemma Station_load_tracks_run (self : Station) g :
  Station_load_tracks self g =
    let '(o, r) := mc_get_station_tracks (_id self) 100 (mobile_client g) in
    let g1 := called (CallGetStationTracks (_id self) 100) r g in
    match o with
    | Raise e => (Raise e, g1)
    | Return data =>
        match Track_from_data_many data g1 with
        | (Return ts, g2) => (Return (mkStation (_id self) ts true), g2)
        | (Raise e, g2) => (Raise e, g2)
        end
    end.
Proof.
  unfold Station_load_tracks. unfold bind at 1. rewrite remote_do_run.
  destruct (mc_get_station_tracks (_id self) 100 (mobile_client g))
    as [[data|e] r]; simpl; [|reflexivity].
  unfold bind, ret.
  destruct (Track_from_data_many data _) as [[ts|e] g2]; reflexivity.
Qed.

Lemma Station_load_tracks_spec (self : Station) g loaded g' :
  Station_load_tracks self g = (Return loaded, g') ->
  exists data,
    fst (mc_get_station_tracks (_id self) 100 (mobile_client g))
    = Return data /\
    _id loaded = _id self /\
    Station_get_tracks loaded = Asserted (_tracks loaded) /\
    length (_tracks loaded) = length data /\
    (forall i d, data !! i = Some d ->
       exists l, _tracks loaded !! i = Some l /\
                 (l ∉ dom (heap g)) /\
                 parse_track d = Return (deref l g')) /\
    calls g' = calls g ++ [CallGetStationTracks (_id self) 100] /\
    caches_and_events_kept g g'.
Proof.
  rewrite Station_load_tracks_run.
  destruct (mc_get_station_tracks (_id self) 100 (mobile_client g))
    as [[data|e] r]; simpl; [|discriminate].
  set (g1 := called (CallGetStationTracks (_id self) 100) r g).
  pose proof (heap_only_Track_from_data_many data g1) as Hs.
  destruct (Track_from_data_many data g1) as [[ts|e] g2] eqn:Hrun;
    [|discriminate].
  intros [= <- <-]. simpl in Hs.
  destruct (Track_from_data_many_spec data _ ts g2 Hrun)
    as (Hlen & _ & Hnew & _ & Hidx).
  exists data. split; [reflexivity|]. split; [reflexivity|].
  split; [reflexivity|]. split; [exact Hlen|]. split.
  { intros i d Hi. destruct (Hidx i d Hi) as (l & t & Hl & Hp & Hh).
    exists l. split; [exact Hl|]. split.
    - apply (Hnew l). eapply list_elem_of_lookup_2, Hl.
    - rewrite Hp. f_equal. symmetry. apply lookup_total_correct, Hh. }
  split; [apply Hs|]. apply (same_client_kept g1 g2 Hs).
Qed.

(** A station is made without tracks, and [get_tracks] fails its
    assertion then; once [load_tracks] has returned, [get_tracks] returns
    the tracks loaded: one new object per item of the response, in order,
    under the same station id.  Loading makes the one remote call
    [get_station_tracks] for 100 tracks and touches neither the caches
    nor the events. *)
Theorem Station_tracks_after_load (self : Station) g :
  (exists msg, Station_get_tracks (Station_init (_id self))
               = AssertionError msg) /\
  forall loaded g',
    Station_load_tracks self g = (Return loaded, g') ->
    exists data,
      fst (mc_get_station_tracks (_id self) 100 (mobile_client g))
      = Return data /\
      _id loaded = _id self /\
      Station_get_tracks loaded = Asserted (_tracks loaded) /\
      length (_tracks loaded) = length data /\
      (forall i d, data !! i = Some d ->
         exists l, _tracks loaded !! i = Some l /\
                   (l ∉ dom (heap g)) /\
                   parse_track d = Return (deref l g')) /\
      calls g' = calls g ++ [CallGetStationTracks (_id self) 100] /\
      caches_and_events_kept g g'.
Proof.
  split; [eexists; reflexivity|].
  intros loaded g'. apply Station_load_tracks_spec.
Qed.

Lemma Track_create_station_run (self : loc) g :
  Track_create_station self g =
    match TrackModel.id (deref self g) with
    | Raise e => (Raise e, g)
    | Return track_id =>
        let name := ("Station - " ++ py_str (title (deref self g)))%string in
        let '(o, r) := mc_create_station name track_id (mobile_client g) in
        let g1 := called (CallCreateStation name track_id) r g in
        match o with
        | Raise e => (Raise e, g1)
        | Return station_id =>
            Station_load_tracks (Station_init station_id) g1
        end
    end.
Proof.
  unfold Track_create_station, bind, get_state, lift.
  destruct (TrackModel.id (deref self g)) as [tid|e]; [|reflexivity].
  rewrite remote_do_run.
  destruct (mc_create_station _ tid (mobile_client g)) as [[sid|e] r];
    reflexivity.
Qed.

(** [Track.create_station] on a track without identifier raises before
    anything is sent and changes nothing; otherwise a station that is
    returned carries the id the service gave for the name
    "Station - <title>" and the track's id, and is loaded ([get_tracks]
    does not fail on it); the remote calls made are [create_station] and
    then [get_station_tracks] for that station, and neither the caches nor
    the events are touched. *)
Theorem Track_create_station_loaded (self : loc) g :
  match TrackModel.id (deref self g) with
  | Raise e => Track_create_station self g = (Raise e, g)
  | Return track_id =>
      let name := ("Station - " ++ py_str (title (deref self g)))%string in
      forall station g',
        Track_create_station self g = (Return station, g') ->
        fst (mc_create_station name track_id (mobile_client g))
        = Return (_id station) /\
        Station_get_tracks station = Asserted (_tracks station) /\
        calls g' = calls g ++ [CallCreateStation name track_id;
                               CallGetStationTracks (_id station) 100] /\
        caches_and_events_kept g g'
  end.
Proof.
  rewrite Track_create_station_run.
  destruct (TrackModel.id (deref self g)) as [tid|e]; [|reflexivity].
  cbv zeta. intros station g'.
  destruct (mc_create_station _ tid (mobile_client g)) as [[sid|e] r];
    simpl; [|discriminate].
  intros Hload.
  destruct (Station_load_tracks_spec _ _ _ _ Hload)
    as (data & _ & Hid & Hget & _ & _ & Hcalls & Hkept).
  simpl in Hid. subst sid.
  split; [reflexivity|]. split; [exact Hget|].
  split; [|exact Hkept].
  rewrite Hcalls. simpl. rewrite <- app_assoc. reflexivity.
Qed.

(** *** search *)

Lemma collect_spec (key : string)
    (hits : list (option (gmap string pyval))) ds :
  collect key hits = Return ds -> hits = Some <$> ds.
Proof.
  revert ds. induction hits as [|[d|] hits IH]; intros ds; simpl.
  - intros [= <-]. reflexivity.
  - destruct (collect key hits) as [ds'|e]; simpl; [|discriminate].
    intros [= <-]. simpl. f_equal. apply IH. reflexivity.
  - discriminate.
Qed.

Lemma Artist_from_data_many_spec (data : list (gmap string pyval)) found :
  Artist_from_data_many data = Return found ->
  Forall2 (fun d a => d !! "artistId" = Some (artist_id a) /\
                      d !! "name" = Some (artist_name a)) data found.
Proof.
  revert found. induction data as [|d data IH]; intros found; simpl.
  - intros [= <-]. constructor.
  - unfold Artist_from_data, getitem.
    destruct (d !! "artistId") as [aid|] eqn:Hid; simpl; [|discriminate].
    destruct (d !! "name") as [aname|] eqn:Hname; simpl; [|discriminate].
    destruct (Artist_from_data_many data) as [others|e]; simpl;
      [|discriminate].
    intros [= <-]. constructor; [split; assumption|apply IH; reflexivity].
Qed.

(** A search that returns gives one track per song hit and one artist per
    artist hit, in the order of the response: each track a new object
    parsed from the hit's [track], each artist with the [artistId] and
    [name] of the hit's [artist].  It makes the one remote call [search]
    with the query, uses no cache and leaves the caches and the events
    alone. *)
Theorem search_results (query : pyval) g results g' :
  search query g = (Return results, g') ->
  exists track_items artist_items,
    fst (mc_search query (mobile_client g))
    = Return (mkSearchData (Some (Some <$> track_items))
                           (Some (Some <$> artist_items))) /\
    length (tracks_found results) = length track_items /\
    (forall i d, track_items !! i = Some d ->
       exists l, tracks_found results !! i = Some l /\
                 (l ∉ dom (heap g)) /\
                 parse_track d = Return (deref l g')) /\
    Forall2 (fun d a => d !! "artistId" = Some (artist_id a) /\
                        d !! "name" = Some (artist_name a))
            artist_items (artists results) /\
    calls g' = calls g ++ [CallSearch query] /\
    caches_and_events_kept g g'.
Proof.
  unfold search. unfold bind at 1. rewrite remote_do_run.
  destruct (mc_search query (mobile_client g)) as [[data|e] r]; simpl;
    [|discriminate].
  unfold SearchResults_from_data. destruct data as [shits ahits]. simpl.
  unfold bind at 1. unfold lift at 1.
  destruct shits as [hits|]; simpl; [|discriminate].
  unfold bind at 1. unfold lift at 1.
  destruct (collect "track" hits) as [track_items|e] eqn:Hhits;
    [|discriminate].
  unfold bind at 1.
  set (g1 := called (CallSearch query) r g).
  pose proof (heap_only_Track_from_data_many track_items g1) as Hs.
  destruct (Track_from_data_many track_items g1)
    as [[ts|e] g2] eqn:Hrun; [|discriminate].
  unfold bind at 1. unfold lift at 1.
  destruct ahits as [ahits|]; simpl; [|discriminate].
  unfold bind at 1. unfold lift at 1.
  destruct (collect "artist" ahits) as [artist_items|e] eqn:Hahits;
    [|discriminate].
  unfold bind at 1. unfold lift at 1.
  destruct (Artist_from_data_many artist_items) as [found|e] eqn:Hfound;
    [|discriminate].
  unfold ret. intros [= <- <-]. simpl.
  exists track_items, artist_items.
  rewrite (collect_spec _ _ _ Hhits), (collect_spec _ _ _ Hahits).
  split; [reflexivity|].
  destruct (Track_from_data_many_spec track_items _ ts g2 Hrun)
    as (Hlen & _ & Hnew & _ & Hidx).
  split; [exact Hlen|]. split.
  { intros i d Hi. destruct (Hidx i d Hi) as (l & t & Hl & Hp & Hh).
    exists l. split; [exact Hl|]. split.
    - apply (Hnew l). eapply list_elem_of_lookup_2, Hl.
    - rewrite Hp. f_equal. symmetry. apply lookup_total_correct, Hh. }
  split; [apply Artist_from_data_many_spec, Hfound|].
  split; [apply Hs|]. apply (same_client_kept g1 g2 Hs).
Qed.

(** *** Track.get_url *)

(** [Track.get_url] reads the id of the track in the caller: a track
    without identifier makes the call raise, no thread is started and the
    callback is never invoked.  Otherwise the thread started invokes the
    callback exactly once, with [extra] holding the track under [track],
    and with the URL the service returns for the track's id, or with the
    exception it raises. *)
Theorem Track_get_url_delivers (self : loc)
    (callback : Async.callback_fn (@GP remote) pyval loc) g :
  match TrackModel.id (deref self g) with
  | Raise e => Track_get_url self callback g = Raise e
  | Return stream_id =>
      exists t,
        Track_get_url self callback g = Return t /\
        forall w,
          exists c,
            Async.deliveries t w = [c] /\
            Async.call_extra c = {["track" := self]} /\
            match fst (mc_get_stream_url stream_id
                         (mobile_client (Async.state w))) with
            | Return url =>
                Async.call_result c = as_result url /\
                Async.call_error c = None
            | Raise e =>
                Async.call_result c = None /\ Async.call_error c = Some e
            end
  end.
Proof.
  unfold Track_get_url.
  destruct (TrackModel.id (deref self g)) as [sid|e]; [|reflexivity].
  eexists. split; [reflexivity|]. intros w.
  rewrite AsyncFacts.process_deliveries.
  unfold get_stream_url. rewrite remote_do_run.
  destruct (mc_get_stream_url sid (mobile_client (Async.state w)))
    as [[url|e] r]; simpl; eexists; repeat split.
Qed.


End RadioFacts.

(** ** The song list *)

Module SongListFacts.
Import SongList.

(** The minutes and seconds shown for a track add up to its duration in
    whole seconds, with the seconds between 0 and 59, for every integer
    duration. *)
Theorem duration_display (duration : Z) :
  (0 <= seconds duration < 60)%Z /\
  (minutes duration * 60 + seconds duration = duration / 1000)%Z.
Proof.
  unfold minutes, seconds. split.
  - apply Z.mod_pos_bound. lia.
  - rewrite <- Z.div_div by lia.
    pose proof (Z.div_mod (duration / 1000) 60 ltac:(lia)). lia.
Qed.

Section List.
Context {remote : Type}.
Implicit Types (g : @GP remote) (current : option loc).

Lemma tracks_to_songlist_loop_spec g current (tracks : list loc) :
  forall index items current_index,
  tracks_to_songlist_loop g current tracks index items current_index
  = (items ++ map (item_for g current) tracks,
     match current_index with
     | Some i => Some i
     | None =>
         match list_find (fun t => is_current g current t = true) tracks with
         | Some (i, _) => Some (index + i)
         | None => None
         end
     end).
Proof.
  induction tracks as [|t tracks IH]; intros index items current_index; simpl.
  - rewrite app_nil_r. destruct current_index; reflexivity.
  - rewrite IH. f_equal; [rewrite <- app_assoc; reflexivity|].
    destruct (is_current g current t) eqn:Hcur.
    + rewrite decide_True by reflexivity.
      destruct current_index; [reflexivity|]. simpl.
      rewrite Nat.add_0_r. reflexivity.
    + rewrite decide_False by discriminate.
      destruct current_index; [reflexivity|].
      destruct (list_find _ tracks) as [[i x]|]; simpl; [|reflexivity].
      f_equal. lia.
Qed.

Lemma tracks_to_songlist_loop_spec_aux g current (tracks : list loc) :
  tracks_to_songlist g current tracks
  = (map (item_for g current) tracks,
     fst <$> list_find (fun t => is_current g current t = true) tracks).
Proof.
  unfold tracks_to_songlist. rewrite tracks_to_songlist_loop_spec. simpl.
  destruct (list_find _ tracks) as [[i x]|]; reflexivity.
Qed.

(** [tracks_to_songlist] makes one item per track, in order, marks as
    loading exactly the tracks that the current track equals (by
    [Track.__eq__], the current track on the left), and reports the
    position of the first of them, if there is one. *)
Theorem tracks_to_songlist_spec g current (tracks : list loc) :
  tracks_to_songlist g current tracks
  = (map (item_for g current) tracks,
     fst <$> list_find (fun t => is_current g current t = true) tracks).
Proof. apply tracks_to_songlist_loop_spec_aux. Qed.

(** After [populate] the walker has one item per track, the item at
    position [i] carrying index [i] and the track at [i]; the focus is put
    on the first item of the current track and, when no item is current, on
    position 0 of a list that is not empty. *)
Theorem populate_focus g current (tracks : list loc) :
  let '(walker, focus) := populate g current tracks in
  length walker = length tracks /\
  (forall i item, walker !! i = Some item ->
     index item = i /\ tracks !! i = Some (track item) /\
     state item = (if is_current g current (track item) then STATE_LOADING
                   else STATE_IDLE)) /\
  focus = match list_find (fun t => is_current g current t = true) tracks with
          | Some (i, _) => Some i
          | None => match tracks with [] => None | _ :: _ => Some 0 end
          end.
Proof.
  unfold populate. rewrite tracks_to_songlist_loop_spec_aux.
  unfold update_indexes. split; [|split].
  - rewrite length_imap, length_map. reflexivity.
  - intros i item Hi. rewrite list_lookup_imap, list_lookup_fmap in Hi.
    destruct (tracks !! i) as [t|]; simpl in Hi; [|discriminate].
    injection Hi as <-. simpl. repeat split.
  - destruct (list_find _ tracks) as [[i x]|]; simpl; [reflexivity|].
    rewrite length_imap, length_map.
    destruct tracks as [|t tracks]; [reflexivity|].
    case_decide as Hle; [reflexivity|]. simpl in Hle. lia.
Qed.

Lemma set_state_same (item : SongListItem) :
  set_state (state item) item = item.
Proof. destruct item. reflexivity. Qed.

Lemma track_changed_loop_spec g (t : loc) (walker : list widget) :
  forall i focus,
  track_changed_loop g t walker i focus
  = (map (marked g t) walker,
     match last_match (shown_at g t) walker with
     | Some j => Some (i + j)
     | None => focus
     end).
Proof.
  induction walker as [|w walker IH]; intros i focus; simpl; [reflexivity|].
  destruct w as [s|item]; simpl.
  - rewrite IH. destruct (last_match _ walker) as [j|]; simpl;
      [|reflexivity].
    do 2 f_equal. lia.
  - destruct (shows g t item) eqn:Hshow; simpl.
    + rewrite IH. destruct (last_match _ walker) as [j|]; simpl.
      * do 2 f_equal. lia.
      * rewrite Nat.add_0_r. reflexivity.
    + destruct (Z.eqb (state item) STATE_IDLE) eqn:Hidle; simpl;
        rewrite IH; (destruct (last_match _ walker) as [j|]; simpl;
                    [do 2 f_equal; try lia|]).
      all: try (apply Z.eqb_eq in Hidle; rewrite <- Hidle;
                rewrite set_state_same; reflexivity).
      all: try reflexivity.
      all: apply Z.eqb_eq in Hidle; rewrite <- Hidle, set_state_same;
           do 2 f_equal; lia.
Qed.

(** When the player starts a track, [track_changed] puts in state loading
    exactly the song items whose track equals it (by [Track.__eq__], the
    track of the item on the left) and every other song item in state
    idle, leaves placeholders alone, and moves the focus to the last of
    the matching items (to none when nothing matches). *)
Theorem track_changed_marks g (t : loc) (walker : list widget) :
  track_changed g t walker
  = (map (marked g t) walker, last_match (shown_at g t) walker).
Proof.
  unfold track_changed. rewrite track_changed_loop_spec.
  destruct (last_match _ walker); reflexivity.
Qed.

(** The position [last_match] gives is that of a matching widget with no
    matching widget after it. *)
Lemma last_match_spec {A} (P : A -> bool) (l : list A) :
  match last_match P l with
  | Some j =>
      (exists x, l !! j = Some x /\ P x = true) /\
      forall k x, j < k -> l !! k = Some x -> P x = false
  | None => forall k x, l !! k = Some x -> P x = false
  end.
Proof.
  induction l as [|a l IH]; simpl.
  - intros k x Hk. discriminate.
  - destruct (last_match P l) as [j|].
    + destruct IH as [[x [Hx HP]] Hafter]. split.
      * exists x. split; assumption.
      * intros [|k] y Hlt Hk; [lia|]. simpl in Hk.
        apply (Hafter k y); [lia|exact Hk].
    + destruct (P a) eqn:Ha.
      * split; [exists a; split; [reflexivity|exact Ha]|].
        intros [|k] y Hlt Hk; [lia|]. apply (IH k y Hk).
      * intros [|k] y Hk; simpl in Hk; [congruence|]. apply (IH k y Hk).
Qed.

End List.
End SongListFacts.

(** ** More of the properties on the scripted session *)

Module MoreExamples.
Import Mock MockRadio.

Lemma parse_song1 : parse_track song1 = Return track1.
Proof. vm_compute. reflexivity. Qed.

Lemma parse_track_id_witness :
  parse_track song1 = Return track1 /\
  (returned (TrackModel.id track1) = true <->
     truthy (dict_get song1 "id") = true
     \/ truthy (dict_get song1 "trackId") = true
     \/ truthy (dict_get song1 "storeId") = true).
Proof.
  split; [exact parse_song1|].
  exact (parse_track_id song1 track1 parse_song1).
Defined.

Lemma Track_from_data_many_objects_witness :
  exists g',
    Track_from_data_many [song1; song2] (fresh_client session0)
    = (Return [1; 2]%positive, g') /\
    NoDup [1; 2]%positive.
Proof.
  destruct (Track_from_data_many [song1; song2] (fresh_client session0))
    as [o g'] eqn:Hrun.
  assert (Ho : o = Return [1; 2]%positive).
  { change o with
      (fst (o, g')). rewrite <- Hrun. vm_compute. reflexivity. }
  subst o. exists g'. split; [reflexivity|].
  apply (Track_from_data_many_objects [song1; song2]
           (fresh_client session0) [1; 2]%positive g' Hrun).
Defined.

Lemma get_all_tracks_fetched_witness :
  cache_truthy (cached_tracks (fresh_client session0)) = false /\
  mc_get_all_songs (mobile_client (fresh_client session0))
  = (Return [song1; song2; song3], session0) /\
  exists ts g',
    get_all_tracks (fresh_client session0) = (Return ts, g') /\
    cached_tracks g' = Some ts /\ length ts = 3.
Proof.
  assert (Hmiss : cache_truthy (cached_tracks (fresh_client session0))
                  = false) by reflexivity.
  assert (Hremote : mc_get_all_songs (mobile_client (fresh_client session0))
                    = (Return [song1; song2; song3], session0))
    by reflexivity.
  split; [exact Hmiss|]. split; [exact Hremote|].
  destruct (proj1 (get_all_tracks_fetched (fresh_client session0)
                     [song1; song2; song3] session0 Hmiss Hremote))
    as (ts & g' & Hrun & Hc & Hlen & _).
  - repeat constructor.
  - exists ts, g'. split; [exact Hrun|]. split; [exact Hc|exact Hlen].
Defined.

Lemma loaded_cached : cached_tracks loaded = Some [1; 2; 3]%positive.
Proof. vm_compute. reflexivity. Qed.

Lemma get_track_by_id_finds_cached_witness :
  cached_tracks loaded = Some [1; 2; 3]%positive /\
  2%positive ∈ [1; 2; 3]%positive /\
  TrackModel.id (deref 2%positive loaded) = Return (PStr "lib-2") /\
  exists l',
    get_track_by_id (PStr "lib-2") loaded = (Return (Some l'), loaded).
Proof.
  assert (Hin : 2%positive ∈ [1; 2; 3]%positive).
  { apply list_elem_of_further, list_elem_of_here. }
  assert (Hid : TrackModel.id (deref 2%positive loaded)
                = Return (PStr "lib-2")).
  { vm_compute. reflexivity. }
  split; [exact loaded_cached|]. split; [exact Hin|]. split; [exact Hid|].
  destruct (get_track_by_id_finds_cached loaded [1; 2; 3]%positive
              2%positive (PStr "lib-2") loaded_cached Hin Hid)
    as (l' & Hrun & _).
  exists l'. exact Hrun.
Defined.

Lemma get_all_user_playlist_contents_fetched_witness :
  (forall cache, cached_tracks (fresh_client session0) = Some cache ->
                 live (fresh_client session0) cache) /\
  cache_truthy (cached_playlists (fresh_client session0)) = false /\
  exists ps g',
    get_all_user_playlist_contents (fresh_client session0)
    = (Return ps, g') /\
    cached_playlists g' = Some ps.
Proof.
  assert (Hwf : forall cache,
            cached_tracks (fresh_client session0) = Some cache ->
            live (fresh_client session0) cache).
  { intros cache Hc. discriminate Hc. }
  split; [exact Hwf|]. split; [reflexivity|].
  destruct (get_all_user_playlist_contents (fresh_client session0))
    as [[ps|e] g'] eqn:Hrun.
  - exists ps, g'. split; [reflexivity|].
    assert (Hmiss : cache_truthy (cached_playlists (fresh_client session0))
                    = false) by reflexivity.
    destruct (get_all_user_playlist_contents_fetched
                (fresh_client session0) ps g' Hwf Hmiss Hrun)
      as (cache & g1 & data & _ & _ & _ & Hp & _).
    exact Hp.
  - exfalso.
    assert (Hret : returned (fst (get_all_user_playlist_contents
                                    (fresh_client session0))) = true).
    { vm_compute. reflexivity. }
    rewrite Hrun in Hret. discriminate Hret.
Defined.

Lemma synchronized_releases_witness :
  Sync.balanced tick /\
  Sync.synchronized LockLogin tick ∅ 0 = Some (Return tt, 1, ∅).
Proof.
  assert (Hbal : Sync.balanced tick) by apply SyncFacts.plain_balanced.
  split; [exact Hbal|].
  destruct (SyncFacts.synchronized_releases LockLogin tick ∅ 0 Hbal)
    as (_ & Hrun & _).
  eapply Hrun; [apply not_elem_of_empty|reflexivity].
Defined.



Lemma search_results_witness :
  exists results g',
    search (PStr "two") (fresh_client session0) = (Return results, g') /\
    length (tracks_found results) = 2 /\
    calls g' = [CallSearch (PStr "two")] /\
    caches_and_events_kept (fresh_client session0) g'.
Proof.
  destruct (search (PStr "two") (fresh_client session0))
    as [[results|e] g'] eqn:Hrun.
  - exists results, g'. split; [reflexivity|].
    destruct (search_results (PStr "two") (fresh_client session0)
                results g' Hrun)
      as (track_items & artist_items & Hremote & Hlen & _ & _ & Hcalls
          & Hsame).
    split; [|split; [exact Hcalls|exact Hsame]]. rewrite Hlen.
    simpl in Hremote. injection Hremote as Ht _.
    apply (f_equal length) in Ht. rewrite length_fmap in Ht.
    simpl in Ht. congruence.
  - exfalso.
    assert (Hret : returned (fst (search (PStr "two")
                                    (fresh_client session0))) = true).
    { vm_compute. reflexivity. }
    rewrite Hrun in Hret. discriminate Hret.
Defined.

(** A title is rendered as [str] renders it. *)
Example py_str_values :
  py_str (PInt (-5)) = "-5" /\ py_str (PInt 0) = "0" /\
  py_str (PInt 120) = "120" /\ py_str PNone = "None".
Proof. repeat split. Qed.

End MoreExamples.

(** ** The library entries of the context menu *)

Section MenuFacts.
Context {remote : Type} `{!Mobileclient remote} `{!Builtins}.
Implicit Types (w : Async.world (Menu.screen (remote:=remote)) reply pyval).

(** The thread of "Add to my library" shows exactly one notification; it
    is "Track added" exactly when the service reported the change as done,
    in which case both caches are cleared when the notification is shown;
    a falsy result and an exception alike show the failure, with the
    exception as the reason, if there is one. *)
Theorem menu_add_notifies (t : loc) w :
  exists thread,
    Menu.menu_add_to_my_library t = Return thread /\
    let g := fst (Async.state w) in
    let o := fst (add_to_my_library t g) in
    let s' := Async.state (snd (thread w)) in
    fst s' = snd (add_to_my_library t g) /\
    snd s' = snd (Async.state w) ++
             [if reported_done o then Menu.TrackAdded
              else Menu.AddFailed (match o with
                                   | Raise e => Some e
                                   | Return _ => None
                                   end)] /\
    (reported_done o = true ->
     cached_tracks (fst s') = None /\ cached_playlists (fst s') = None).
Proof.
  eexists. split; [reflexivity|]. simpl.
  unfold Async.process, Menu.Track_add_to_my_library.
  pose proof (add_to_my_library_change t (fst (Async.state w))) as Heff.
  simpl in Heff.
  destruct (add_to_my_library t (fst (Async.state w))) as [[r|e] g'];
    simpl in *.
  - unfold Async.invoke, Menu.on_add_to_my_library. simpl.
    destruct (reply_truthy r); simpl; (split; [reflexivity|]);
      (split; [reflexivity|]); [intros _; apply Heff|discriminate].
  - unfold Async.invoke, Menu.on_add_to_my_library. simpl.
    split; [reflexivity|]. split; [reflexivity|discriminate].
Qed.

(** The thread of "Remove from my library" likewise: one notification,
    "Track removed" exactly when the service reported the removal as done,
    with both caches cleared by then. *)
Theorem menu_remove_notifies (t : loc) w :
  exists thread,
    Menu.menu_remove_from_my_library t = Return thread /\
    let g := fst (Async.state w) in
    let o := fst (remove_from_my_library t g) in
    let s' := Async.state (snd (thread w)) in
    fst s' = snd (remove_from_my_library t g) /\
    snd s' = snd (Async.state w) ++
             [if reported_done o then Menu.TrackRemoved
              else Menu.RemoveFailed (match o with
                                      | Raise e => Some e
                                      | Return _ => None
                                      end)] /\
    (reported_done o = true ->
     cached_tracks (fst s') = None /\ cached_playlists (fst s') = None).
Proof.
  eexists. split; [reflexivity|]. simpl.
  unfold Async.process, Menu.Track_remove_from_my_library.
  pose proof (remove_from_my_library_change t (fst (Async.state w))) as Heff.
  simpl in Heff.
  destruct (remove_from_my_library t (fst (Async.state w))) as [[r|e] g'];
    simpl in *.
  - unfold Async.invoke, Menu.on_remove_from_my_library. simpl.
    destruct (reply_truthy r); simpl; (split; [reflexivity|]);
      (split; [reflexivity|]); [intros _; apply Heff|discriminate].
  - unfold Async.invoke, Menu.on_remove_from_my_library. simpl.
    split; [reflexivity|]. split; [reflexivity|discriminate].
Qed.

End MenuFacts.
